(** * yotocol: the NDEF helpers of [src/index.js]

    A shallow embedding of the three helper functions of the card reader,
    [parseUriRecord], [findNdefMessage] and [decodePayload], together with
    the table [URI_PREFIXES] they share, and the properties of the
    repository's specification that concern them; then the part of [main]
    that records a card's URL in [cards.json] and [urls.json], and further
    properties of all four (X1, X2, ...).

    The helpers run on Node.js.  The part of the runtime they touch
    (numbers that may be [NaN], [Buffer] indexing and slicing, strings of
    UTF-16 code units, [parseInt], [String.fromCharCode], the UTF-8 and hex
    renderings of a [Buffer], [console.log]) is modelled in [Module JS]. *)

From Stdlib Require Import ZArith NArith List Lia ZifyBool.
From Stdlib Require Import Strings.Byte.
From stdpp Require Import base list gmap strings.
From Equations.Prop Require Import Equations Logic.

#[local] Open Scope N_scope.

(** ** The JavaScript runtime the helpers use *)

Module JS.

(** A [Buffer] is a sequence of bytes; reading past its end gives
    [undefined], modelled by [None] of the list lookup [data !! i]. *)
Abbreviation Buffer := (list byte).

(** A JavaScript string is a sequence of UTF-16 code units. *)
Abbreviation jsstring := (list N).

#[global] Instance byte_eq_dec : EqDecision byte := Byte.byte_eq_dec.

(** The numbers the helpers compute with are integers or [NaN]. *)
Inductive number := NaN | Num (z : Z).

#[global] Instance number_eq_dec : EqDecision number.
Proof. solve_decision. Defined.

(** A string literal of the source, as code units. *)
Definition lit (s : string) : jsstring :=
  map Ascii.N_of_ascii (String.list_ascii_of_string s).

(** A byte read from a [Buffer], as a number. *)
Definition number_of_byte (b : byte) : number := Num (Z.of_N (Byte.to_N b)).

(** [ToNumber] of a value read from a [Buffer]: [undefined] becomes [NaN]. *)
Definition ToNumber (v : option byte) : number :=
  match v with
  | Some b => number_of_byte b
  | None => NaN
  end.

(** The operator [+] on numbers. *)
Definition add (a b : number) : number :=
  match a, b with
  | Num x, Num y => Num (x + y)
  | _, _ => NaN
  end.

(** [adjustOffset] of Node's [lib/buffer.js]: [NaN] and [0] give [0], a
    negative offset counts from the end, and the result is clamped to
    [0 .. length]. *)
Definition adjustOffset (offset : number) (length : Z) : Z :=
  match offset with
  | NaN => 0
  | Num o =>
      if (o =? 0)%Z then 0
      else if (o <? 0)%Z then
        (if (0 <? o + length)%Z then o + length else 0)
      else if (o <? length)%Z then o
      else length
  end%Z.

(** [buf.slice(start, end)]: the bytes from [start] up to [end], both
    adjusted, and none when [end] is not after [start]. *)
Definition slice (this : Buffer) (start end_ : number) : Buffer :=
  let srcLength := Z.of_nat (length this) in
  let start := adjustOffset start srcLength in
  let end_ := adjustOffset end_ srcLength in
  let newLength := (if (start <? end_)%Z then end_ - start else 0)%Z in
  take (Z.to_nat newLength) (drop (Z.to_nat start) this).

(** [buf.slice(start)]: [end] defaults to the length. *)
Definition slice_from (this : Buffer) (start : number) : Buffer :=
  slice this start (Num (Z.of_nat (length this))).

(** *** Digits *)

(** The digit [d] (below 36) as a code unit: [0-9] then [a-z]. *)
Definition digit_char (d : N) : N :=
  if d <? 10 then 48 + d else 87 + d.

(** The digits of [n] in [radix], most significant first ([radix] is 10
    or 16 in this program). *)
Equations? to_digits (radix n : N) : list N by wf (N.to_nat n) lt :=
  to_digits radix n with decide (n < radix ∨ radix < 2) => {
    | left _ := [n];
    | right _ := to_digits radix (n / radix) ++ [n mod radix] }.
Proof.
  assert (n / radix < n); [|lia].
  apply N.div_lt; lia.
Qed.

(** [n.toString(radix)] for a natural number [n]. *)
Definition N_toString (radix n : N) : jsstring :=
  map digit_char (to_digits radix n).

(** [z.toString()] for an integer below [10^21] in absolute value, and the
    rendering of an element by [Array.prototype.join]. *)
Definition Z_toString (z : Z) : jsstring :=
  if (z <? 0)%Z then 45 :: N_toString 10 (Z.to_N (- z))
  else N_toString 10 (Z.to_N z).

(** [s.padStart(targetLength, c)] with a one-character filler. *)
Definition padStart (s : jsstring) (targetLength : nat) (c : N) : jsstring :=
  replicate (targetLength - length s) c ++ s.

(** [buf.toString('hex')]: two lower-case digits per byte. *)
Definition toString_hex (this : Buffer) : jsstring :=
  mjoin (map (λ b, padStart (N_toString 16 (Byte.to_N b)) 2 48) this).

(** *** UTF-8 decoding

    [buf.toString('utf8')] decodes as the WHATWG decoder does: every
    maximal ill-formed subsequence becomes one U+FFFD, nothing is an
    error, and a leading U+FEFF is kept. *)
Inductive utf8_state :=
  | Start
  | Pending (code_point : N) (needed : nat) (lower upper : N).

Definition replacement : N := 0xFFFD.

(** A byte read when no sequence is open. *)
Definition utf8_lead (b : N) : utf8_state * list N :=
  if b <=? 0x7F then (Start, [b])
  else if (0xC2 <=? b) && (b <=? 0xDF) then
    (Pending (N.land b 0x1F) 1 0x80 0xBF, [])
  else if (0xE0 <=? b) && (b <=? 0xEF) then
    (Pending (N.land b 0xF) 2
       (if b =? 0xE0 then 0xA0 else 0x80)
       (if b =? 0xED then 0x9F else 0xBF), [])
  else if (0xF0 <=? b) && (b <=? 0xF4) then
    (Pending (N.land b 0x7) 3
       (if b =? 0xF0 then 0x90 else 0x80)
       (if b =? 0xF4 then 0x8F else 0xBF), [])
  else (Start, [replacement]).

(** One byte of input: the next state and the code points completed. *)
Definition utf8_step (st : utf8_state) (b : N) : utf8_state * list N :=
  match st with
  | Start => utf8_lead b
  | Pending cp needed lower upper =>
      if (lower <=? b) && (b <=? upper) then
        let cp := N.lor (N.shiftl cp 6) (N.land b 0x3F) in
        match needed with
        | S (S _ as needed) => (Pending cp needed 0x80 0xBF, [])
        | _ => (Start, [cp])
        end
      else
        let '(st, out) := utf8_lead b in (st, replacement :: out)
  end.

Fixpoint utf8_run (st : utf8_state) (bytes : list N) : list N :=
  match bytes with
  | [] => match st with Start => [] | Pending _ _ _ _ => [replacement] end
  | b :: bytes =>
      let '(st, out) := utf8_step st b in out ++ utf8_run st bytes
  end.

(** A code point as UTF-16: itself, or a surrogate pair above the BMP. *)
Definition utf16_units (cp : N) : list N :=
  if cp <? 0x10000 then [cp]
  else
    let c := cp - 0x10000 in
    [0xD800 + N.shiftr c 10; 0xDC00 + N.land c 0x3FF].

Definition toString_utf8 (this : Buffer) : jsstring :=
  mjoin (map utf16_units (utf8_run Start (map Byte.to_N this))).

(** *** Strings *)

Fixpoint take_while {A} (p : A → bool) (l : list A) : list A :=
  match l with
  | [] => []
  | x :: l => if p x then x :: take_while p l else []
  end.

Fixpoint drop_while {A} (p : A → bool) (l : list A) : list A :=
  match l with
  | [] => []
  | x :: l' => if p x then drop_while p l' else l
  end.

(** White space and line terminators (ECMAScript's [StrWhiteSpaceChar]). *)
Definition is_white_space (c : N) : bool :=
  ((0x09 <=? c) && (c <=? 0x0D)) || (c =? 0x20) || (c =? 0xA0)
  || (c =? 0x1680) || ((0x2000 <=? c) && (c <=? 0x200A))
  || (c =? 0x2028) || (c =? 0x2029) || (c =? 0x202F) || (c =? 0x205F)
  || (c =? 0x3000) || (c =? 0xFEFF).

(** [s.trim()]. *)
Definition trim (s : jsstring) : jsstring :=
  reverse (drop_while is_white_space (reverse (drop_while is_white_space s))).

(** [s.split(c)] with a one-character separator: at least one piece. *)
Fixpoint split (sep : N) (s : jsstring) : list jsstring :=
  match s with
  | [] => [[]]
  | c :: s =>
      if c =? sep then [] :: split sep s
      else
        match split sep s with
        | piece :: pieces => (c :: piece) :: pieces
        | [] => [[c]]
        end
  end.

(** [pieces.join(sep)] on strings. *)
Fixpoint join (sep : jsstring) (pieces : list jsstring) : jsstring :=
  match pieces with
  | [] => []
  | [piece] => piece
  | piece :: pieces => piece ++ sep ++ join sep pieces
  end.

Definition is_digit (c : N) : bool := (48 <=? c) && (c <=? 57).

(** [parseInt(s, 10)]: leading white space and one sign are skipped, the
    longest run of decimal digits is read, and no digit gives [NaN].  The
    value is kept exact; the engine rounds one beyond [2^53] to a double. *)
Definition parseInt10 (s : jsstring) : number :=
  let s := drop_while is_white_space s in
  let '(sign, s) :=
    match s with
    | 45 :: s' => ((-1)%Z, s')
    | 43 :: s' => (1%Z, s')
    | _ => (1%Z, s)
    end in
  match take_while is_digit s with
  | [] => NaN
  | digits =>
      Num (sign * fold_left (λ acc c, 10 * acc + Z.of_N (c - 48))%Z digits 0%Z)
  end.

(** [String.fromCharCode(v)]: one code unit, [ToUint16] of the number. *)
Definition fromCharCode (v : number) : jsstring :=
  match v with
  | NaN => [0]
  | Num z => [Z.to_N (z mod 65536)]
  end.

(** *** Effects: the console and exceptions

    A computation appends lines to the console and either returns a value
    or throws. *)
Inductive exn := TypeError.

Definition IO (A : Type) : Type := list jsstring → (A + exn) * list jsstring.

Definition throw {A} (e : exn) : IO A := λ console, (inr e, console).

#[global] Instance IO_ret : MRet IO := λ A a console, (inl a, console).

#[global] Instance IO_bind : MBind IO := λ A B k m console,
  match m console with
  | (inl a, console) => k a console
  | (inr e, console) => (inr e, console)
  end.

(** [console.log(label, s)]: the arguments on one line, a space between. *)
Definition console_log (label s : jsstring) : IO unit :=
  λ console, (inl tt, console ++ [label ++ 32 :: s]).

(** A method call on a value read from a [Buffer]: on [undefined] it
    throws a [TypeError]. *)
Definition defined {A} (v : option A) : IO A :=
  match v with
  | Some a => mret a
  | None => throw TypeError
  end.

End JS.

Import JS.

(** ** The helpers of [src/index.js] *)

(** URI prefix codes as defined in the NFC Forum URI Record Type
    Definition.  The keys of the object literal are the numbers [0x00] to
    [0x23]; a number that is none of them, [NaN] or [undefined] finds no
    property. *)
Definition URI_PREFIXES : gmap Z jsstring :=
  list_to_map
    [ (0x00, lit EmptyString);
      (0x01, lit "http://www.");
      (0x02, lit "https://www.");
      (0x03, lit "http://");
      (0x04, lit "https://");
      (0x05, lit "tel:");
      (0x06, lit "mailto:");
      (0x07, lit "ftp://anonymous:anonymous@");
      (0x08, lit "ftp://ftp.");
      (0x09, lit "ftps://");
      (0x0A, lit "sftp://");
      (0x0B, lit "smb://");
      (0x0C, lit "nfs://");
      (0x0D, lit "ftp://");
      (0x0E, lit "dav://");
      (0x0F, lit "news:");
      (0x10, lit "telnet://");
      (0x11, lit "imap:");
      (0x12, lit "rtsp://");
      (0x13, lit "urn:");
      (0x14, lit "pop:");
      (0x15, lit "sip:");
      (0x16, lit "sips:");
      (0x17, lit "tftp:");
      (0x18, lit "btspp://");
      (0x19, lit "btl2cap://");
      (0x1A, lit "btgoep://");
      (0x1B, lit "tcpobex://");
      (0x1C, lit "irdaobex://");
      (0x1D, lit "file://");
      (0x1E, lit "urn:epc:id:");
      (0x1F, lit "urn:epc:tag:");
      (0x20, lit "urn:epc:pat:");
      (0x21, lit "urn:epc:raw:");
      (0x22, lit "urn:epc:");
      (0x23, lit "urn:nfc:") ]%Z.

(** [URI_PREFIXES[prefixCode]]. *)
Definition URI_PREFIXES_get (prefixCode : option number) : option jsstring :=
  match prefixCode with
  | Some (Num z) => URI_PREFIXES !! z
  | Some NaN | None => None
  end.

(** [v || '']: a defined, non-empty string is kept. *)
Definition or_empty (v : option jsstring) : jsstring :=
  match v with
  | Some ((_ :: _) as s) => s
  | Some [] | None => []
  end.

Record RawUri := { raw_prefixCode : byte; raw_uriData : jsstring }.

(** The object [parseUriRecord] returns. *)
Record UriRecord := {
  prefixCode : byte;
  prefix : jsstring;
  uri : jsstring;
  fullUri : jsstring;
  raw : RawUri
}.

(** Helper function to parse NDEF URI record. *)
Definition parseUriRecord (data : Buffer) : IO (option UriRecord) :=
  if decide (length data < 2)%nat then mret None
  else
    (* The first byte is the prefix code *)
    let prefixCode := data !! 0%nat in
    code ← defined prefixCode;
    console_log (lit "URI prefix code:")
      (padStart (N_toString 16 (Byte.to_N code)) 2 48);;
    (* The rest is the URI data *)
    let uriData := slice_from data (Num 1) in
    console_log (lit "URI data hex:") (toString_hex uriData);;
    let prefix := or_empty (URI_PREFIXES_get (number_of_byte <$> prefixCode)) in
    let uri := toString_utf8 uriData in
    mret (Some {| prefixCode := code;
                  prefix := prefix;
                  uri := uri;
                  fullUri := prefix ++ uri;
                  raw := {| raw_prefixCode := code;
                            raw_uriData := toString_hex uriData |} |}).

Definition ndefTlv : byte := x03.       (* NDEF Message TLV *)
Definition terminatorTlv : byte := xfe. (* Terminator TLV *)

(** How one turn of the loop of [findNdefMessage] ends. *)
Inductive completion :=
  | Continue (offset : nat)
  | Break
  | Return (value : Buffer).

(** The body of the loop, at [offset]. *)
Definition loop_body (data : Buffer) (offset : nat) : completion :=
  let type := data !! offset in
  if decide (type = Some ndefTlv) then
    let length := data !! (offset + 1)%nat in
    let value :=
      slice data (Num (Z.of_nat offset + 2))
        (add (Num (Z.of_nat offset + 2)) (ToNumber length)) in
    Return value
  else if decide (type = Some terminatorTlv) then Break
  else Continue (offset + 1).

(** [while (offset < data.length) { ... } return null]. *)
Equations? while_loop (data : Buffer) (offset : nat) : option Buffer
  by wf (length data - offset)%nat lt :=
  while_loop data offset with decide (offset < length data)%nat => {
    | right _ := None;
    | left _ with inspect (loop_body data offset) => {
        | exist _ (Continue offset') Hbody := while_loop data offset';
        | exist _ Break _ := None;
        | exist _ (Return value) _ := Some value } }.
Proof.
  unfold loop_body in Hbody.
  repeat case_decide; try discriminate Hbody.
  injection Hbody as <-. lia.
Qed.

(** Helper function to find NDEF message in raw data. *)
Definition findNdefMessage (data : Buffer) : option Buffer :=
  while_loop data 0.

(** Helper function to decode payload. *)
Definition decodePayload (payload : jsstring) : jsstring :=
  (* Split the comma-separated string into numbers *)
  let numbers := map (λ num, parseInt10 (trim num)) (split 44 payload) in
  (* The first byte is the URI prefix code *)
  let prefixCode := numbers !! 0%nat in
  let prefix := or_empty (URI_PREFIXES_get prefixCode) in
  (* Convert remaining numbers to characters *)
  let chars := map fromCharCode (drop 1 numbers) in
  (* Join prefix and characters *)
  prefix ++ join [] chars.

(** ** The card store of [main]

    When a card with records has been decoded, the handler of [main] shows
    the first record's [decodedPayload] as the card's URL and records it in
    two JSON files, [cards.json] and [urls.json].  This part of the handler
    is modelled for one run that no other run interleaves with.  A file's
    state is the value [JSON.parse] gives for its text, and no state when
    the file is missing or does not parse (both throw into the same empty
    [catch]); a write stores the value whose text [JSON.stringify] writes.
    Reading a file that is there and writing a file are taken to
    succeed. *)

(** A value as [JSON.parse] returns it. *)
#[local] Unset Elimination Schemes.
Inductive json :=
  | JNull
  | JBool (b : bool)
  | JNum (literal : jsstring)
  | JStr (s : jsstring)
  | JArr (items : list json)
  | JObj (fields : list (jsstring * json)).
#[local] Set Elimination Schemes.

(** What the user is shown: [p.note(message, title)] and
    [p.log.error] of a message that ends in the error's own. *)
Inductive shown :=
  | Note (message title : jsstring)
  | LogError (message : jsstring) (e : exn).

Record world := { files : gmap string json; screen : list shown }.

(** A step of the handler changes the files and the screen, and returns
    or throws. *)
Definition Task (A : Type) : Type := world → (A + exn) * world.

#[global] Instance Task_ret : MRet Task := λ A a w, (inl a, w).

#[global] Instance Task_bind : MBind Task := λ A B k m w,
  match m w with
  | (inl a, w) => k a w
  | (inr e, w) => (inr e, w)
  end.

(** A pure step that may throw. *)
Definition lift {A} (v : A + exn) : Task A := λ w, (v, w).

(** [try { ... } catch (e) { ... }]. *)
Definition try_catch {A} (m : Task A) (handler : exn → Task A) : Task A :=
  λ w,
    match m w with
    | (inl a, w) => (inl a, w)
    | (inr e, w) => handler e w
    end.

Definition note (message title : jsstring) : Task unit :=
  λ w, (inl tt, {| files := files w;
                   screen := screen w ++ [Note message title] |}).

Definition log_error (message : jsstring) (e : exn) : Task unit :=
  λ w, (inl tt, {| files := files w;
                   screen := screen w ++ [LogError message e] |}).

(** [let v = []; try { v = JSON.parse(await fs.readFile(file, 'utf8')) }
    catch (err) { }]. *)
Definition read_or_empty (file : string) : Task json :=
  λ w, (inl (default (JArr []) (files w !! file)), w).

(** [await fs.writeFile(file, JSON.stringify(v, null, 2))]. *)
Definition writeFile (file : string) (v : json) : Task unit :=
  λ w, (inl tt, {| files := <[file := v]> (files w); screen := screen w |}).

(** The last binding of a key, the one [JSON.parse] keeps. *)
Fixpoint last_binding (key : jsstring) (fields : list (jsstring * json))
  : option json :=
  match fields with
  | [] => None
  | (k, v) :: fields =>
      match last_binding key fields with
      | Some v' => Some v'
      | None => if decide (k = key) then Some v else None
      end
  end.

(** [card.url]: a [TypeError] on [null], the property of an object, and
    [undefined] on any other value. *)
Definition url_of (card : json) : option json + exn :=
  match card with
  | JNull => inr TypeError
  | JObj fields => inl (last_binding (lit "url") fields)
  | _ => inl None
  end.

(** [v === url] for a string [url]. *)
Definition is_string (v : option json) (url : jsstring) : bool :=
  match v with
  | Some (JStr s) => bool_decide (s = url)
  | _ => false
  end.

(** [items.find(card => card.url === url)] on the items of an array. *)
Fixpoint find_url (url : jsstring) (items : list json) : option json + exn :=
  match items with
  | [] => inl None
  | card :: items =>
      match url_of card with
      | inr e => inr e
      | inl v => if is_string v url then inl (Some card)
                 else find_url url items
      end
  end.

(** [cards.find(card => card.url === url)]: only an array has [find]. *)
Definition cards_find (cards : json) (url : jsstring) : option json + exn :=
  match cards with
  | JArr items => find_url url items
  | _ => inr TypeError
  end.

(** [s.includes(searchString)] on strings. *)
Fixpoint string_includes (s searchString : jsstring) : bool :=
  bool_decide (searchString `prefix_of` s)
  || match s with
     | [] => false
     | _ :: s => string_includes s searchString
     end.

(** [urls.includes(url)]: membership in an array, a substring test on a
    string, and a [TypeError] on any other value. *)
Definition urls_includes (urls : json) (url : jsstring) : bool + exn :=
  match urls with
  | JArr items => inl (existsb (λ v, is_string (Some v) url) items)
  | JStr s => inl (string_includes s url)
  | _ => inr TypeError
  end.

(** [v.push(x)]: only an array has [push]. *)
Definition push (v x : json) : json + exn :=
  match v with
  | JArr items => inl (JArr (items ++ [x]))
  | _ => inr TypeError
  end.

Definition cardsFile : string := "cards.json".
Definition urlsFile : string := "urls.json".

(** [{ uid, timestamp, url, data }] as it is written: a [uid] that is
    [undefined] is left out. *)
Definition card_entry (uid : option jsstring) (timestamp url : jsstring)
    (data : json) : json :=
  JObj (match uid with Some u => [(lit "uid", JStr u)] | None => [] end
        ++ [(lit "timestamp", JStr timestamp);
            (lit "url", JStr url);
            (lit "data", data)]).

(** The handler from [const url = parsedRecords[0].decodedPayload] on:
    [uid] is the card's, [timestamp] is [new Date().toISOString()] and
    [data] is what [JSON.stringify] keeps of [parsedRecords]. *)
Definition record_url (uid : option jsstring) (timestamp : jsstring)
    (data : json) (url : jsstring) : Task unit :=
  note url (lit "Card Contents");;
  (* Read existing cards.json or create new if it doesn't exist *)
  cards ← read_or_empty cardsFile;
  urls ← read_or_empty urlsFile;
  (* Check if URL already exists *)
  existingCard ← lift (cards_find cards url);
  match existingCard with
  | Some _ => note (lit "URL already exists in cards.json") (lit "Info")
  | None =>
      (* Add new card entry *)
      cards ← lift (push cards (card_entry uid timestamp url data));
      (* Save updated cards.json *)
      writeFile cardsFile cards;;
      note (lit "URL added to cards.json") (lit "Success")
  end;;
  (* Check if URL exists in urls.json *)
  included ← lift (urls_includes urls url);
  if negb included then
    urls ← lift (push urls (JStr url));
    (* Save updated urls.json *)
    writeFile urlsFile urls;;
    note (lit "URL added to urls.json") (lit "Success")
  else note (lit "URL already exists in urls.json") (lit "Info").

(** The same inside [try { ... } catch (ndefErr) { ... }]. *)
Definition record_url_caught (uid : option jsstring) (timestamp : jsstring)
    (data : json) (url : jsstring) : Task unit :=
  try_catch (record_url uid timestamp data url)
    (log_error (lit "NDEF parse error:")).

(** ** Specification-side definitions *)

(** The scanner reaches the tag at [offset]: an NDEF Message tag stands
    there, and no byte before it is that tag or the Terminator tag. *)
Definition first_ndef_tag (data : Buffer) (offset : nat) : Prop :=
  data !! offset = Some ndefTlv ∧
  ∀ i, (i < offset)%nat →
    data !! i ≠ Some ndefTlv ∧ data !! i ≠ Some terminatorTlv.

(** The length a TLV declares, as a count of bytes. *)
Definition declared (L : byte) : nat := N.to_nat (Byte.to_N L).

(** The bytes that follow the length byte of the tag at [offset], as many
    as it declares and the buffer has; none when the length byte itself is
    past the end. *)
Definition value_at (data : Buffer) (offset : nat) : Buffer :=
  match data !! (offset + 1)%nat with
  | Some L => take (declared L) (drop (offset + 2) data)
  | None => []
  end.

(** The abbreviation table of the NFC Forum URI Record Type Definition,
    in the order of its identifier codes [0x00], [0x01], ..., [0x23]. *)
Definition NFC_Forum_prefixes : list string :=
  [ EmptyString; "http://www."; "https://www."; "http://"; "https://"; "tel:";
    "mailto:"; "ftp://anonymous:anonymous@"; "ftp://ftp."; "ftps://";
    "sftp://"; "smb://"; "nfs://"; "ftp://"; "dav://"; "news:";
    "telnet://"; "imap:"; "rtsp://"; "urn:"; "pop:"; "sip:"; "sips:";
    "tftp:"; "btspp://"; "btl2cap://"; "btgoep://"; "tcpobex://";
    "irdaobex://"; "file://"; "urn:epc:id:"; "urn:epc:tag:";
    "urn:epc:pat:"; "urn:epc:raw:"; "urn:epc:"; "urn:nfc:" ]%string.

(** The canonical prefix of a code: its table entry, or the empty string
    for a code the table does not define. *)
Definition canonical_prefix (code : Z) : jsstring :=
  if (code <? 0)%Z then []
  else
    match NFC_Forum_prefixes !! Z.to_nat code with
    | Some p => lit p
    | None => []
    end.

(** The value of a byte, as the number read from a [Buffer]. *)
Definition byte_value (b : byte) : Z := Z.of_N (Byte.to_N b).

(** The lines [parseUriRecord] logs for a payload of two bytes or more. *)
Definition logged (code : byte) (uriData : Buffer) : list jsstring :=
  [ lit "URI prefix code:"
      ++ 32 :: padStart (N_toString 16 (Byte.to_N code)) 2 48;
    lit "URI data hex:" ++ 32 :: toString_hex uriData ].

(** The specification's [ResolvedUri] of the legacy path. *)
Record ResolvedUri := {
  resolved_prefixCode : option Z;
  resolved_prefix : jsstring;
  resolved_suffix : jsstring;
  resolved_full : jsstring
}.

(** [chr]: the character of a code. *)
Definition chr (code : Z) : jsstring := fromCharCode (Num code).

(** [resolveUriFromCodeList], in the specification's words: the first code
    is looked up in the prefix table, the suffix is
    [join(map(chr, codes[1:]))], and [full = prefix + suffix]. *)
Definition resolveUriFromCodeList (codes : list Z) : ResolvedUri :=
  let prefix := or_empty (URI_PREFIXES_get (Num <$> head codes)) in
  let suffix := mjoin (map chr (tail codes)) in
  {| resolved_prefixCode := head codes;
     resolved_prefix := prefix;
     resolved_suffix := suffix;
     resolved_full := prefix ++ suffix |}.

(** The comma-separated decimal rendering of a list of integers (what
    [toString] gives on an array of them). *)
Definition render (codes : list Z) : jsstring :=
  join [44] (map Z_toString codes).

(** An integer a JavaScript number holds exactly. *)
Definition safe_integer (z : Z) : Prop := (- 2 ^ 53 < z < 2 ^ 53)%Z.

(** A piece of a legacy payload: the decimal rendering of an integer with
    white space around it. *)
Definition padded (piece : jsstring * Z * jsstring) : jsstring :=
  let '(before, z, after) := piece in before ++ Z_toString z ++ after.

(** An entry of a legacy payload that may be left empty, as between two
    commas or after the last one. *)
Definition entry (e : option Z) : jsstring :=
  match e with
  | Some z => Z_toString z
  | None => []
  end.

(** The number [decodePayload] reads from such an entry. *)
Definition entry_number (e : option Z) : number :=
  match e with
  | Some z => Num z
  | None => NaN
  end.

(** The commas of a payload. *)
Definition commas (payload : jsstring) : nat :=
  length (filter (λ c, c = 44) payload).

(** The character [decodePayload] gives for an entry after the first: the
    code modulo [2^16], and U+0000 for an empty entry. *)
Definition entry_char (e : option Z) : N :=
  match e with
  | Some z => Z.to_N (z mod 65536)
  | None => 0
  end.

(** The most UTF-16 code units an open UTF-8 sequence can still give when
    it completes: one when the code point stays below [2^16]. *)
Definition worst_units (st : utf8_state) : nat :=
  match st with
  | Start => 0
  | Pending cp 1 _ _ => if cp <? 2 ^ 10 then 1 else 2
  | Pending cp 2 _ _ => if cp <? 2 ^ 4 then 1 else 2
  | Pending _ _ _ _ => 2
  end.

(** ** The TLV scanner *)

Section scanner.
Implicit Types (data value : Buffer) (offset : nat).

Lemma while_loop_eq data offset :
  while_loop data offset =
  if decide (offset < length data)%nat then
    match loop_body data offset with
    | Continue offset' => while_loop data offset'
    | Break => None
    | Return value => Some value
    end
  else None.
Proof.
  funelim (while_loop data offset); case_decide; try lia; try done.
  all: match goal with Hb : loop_body _ _ = _ |- _ => by rewrite Hb end.
Qed.

Lemma loop_body_skip data offset :
  data !! offset ≠ Some ndefTlv →
  data !! offset ≠ Some terminatorTlv →
  loop_body data offset = Continue (offset + 1).
Proof. intros ? ?. unfold loop_body. by repeat case_decide. Qed.

Lemma loop_body_terminator data offset :
  data !! offset = Some terminatorTlv → loop_body data offset = Break.
Proof.
  intros Hd. unfold loop_body. rewrite Hd.
  by repeat case_decide.
Qed.

(** The loop walks over a run of unrecognized tags one byte at a time. *)
Lemma while_loop_skip data n : ∀ k,
  (∀ i, (k ≤ i < k + n)%nat →
     data !! i ≠ Some ndefTlv ∧ data !! i ≠ Some terminatorTlv) →
  while_loop data k = while_loop data (k + n).
Proof.
  induction n as [|n IH]; intros k Hrun.
  - by rewrite Nat.add_0_r.
  - rewrite (while_loop_eq data k). case_decide.
    + destruct (Hrun k) as [? ?]; [lia|].
      rewrite loop_body_skip by done.
      rewrite IH; [f_equal; lia|].
      intros i ?. apply Hrun. lia.
    + rewrite while_loop_eq. case_decide; [lia|done].
Qed.

(** Slicing at [offset + 2] with an end that is [length] further. *)
Lemma slice_value data offset (length : nat) :
  slice data (Num (Z.of_nat offset + 2))
    (Num (Z.of_nat offset + 2 + Z.of_nat length))
  = take length (drop (offset + 2) data).
Proof.
  unfold slice, adjustOffset.
  repeat case_match; try (exfalso; lia).
  all: rewrite ?take_0; try done.
  all: repeat match goal with
         | |- context [Z.to_nat ?z] =>
             lazymatch z with
             | Z.of_nat _ => rewrite (Nat2Z.id)
             | _ => idtac
             end
         end.
  all: apply list_eq; intros i; rewrite !lookup_take, !lookup_drop.
  all: repeat case_decide; try done; try (exfalso; lia).
  all: try (rewrite !lookup_ge_None_2; [done|simpl; lia..]).
  all: try (f_equal; lia).
Qed.

(** An end that is [NaN] is adjusted to [0]: nothing is sliced. *)
Lemma slice_NaN data offset :
  slice data (Num (Z.of_nat offset + 2)) NaN = [].
Proof.
  unfold slice, adjustOffset.
  repeat case_match; try (exfalso; lia); done.
Qed.

Lemma loop_body_tag data offset :
  data !! offset = Some ndefTlv →
  loop_body data offset = Return (value_at data offset).
Proof.
  intros Hd. unfold loop_body, value_at. rewrite Hd.
  case_decide; [|done]. f_equal.
  destruct (data !! (offset + 1)%nat) as [L|]; simpl.
  - unfold declared. rewrite <- slice_value. do 2 f_equal. lia.
  - apply slice_NaN.
Qed.

Lemma findNdefMessage_at_tag data offset :
  first_ndef_tag data offset →
  findNdefMessage data = Some (value_at data offset).
Proof.
  intros [Htag Hrun]. unfold findNdefMessage.
  rewrite (while_loop_skip data offset 0).
  - simpl. rewrite while_loop_eq.
    case_decide as Hlt.
    + by rewrite loop_body_tag.
    + apply lookup_lt_Some in Htag. lia.
  - intros i ?. apply Hrun. lia.
Qed.

(** From [k] on, with only unrecognized tags before [k]: either the loop
    ends without a value and no tag can be reached, or one can. *)
Lemma while_loop_cases data (n : nat) : ∀ k,
  (length data - k ≤ n)%nat →
  (∀ i, (i < k)%nat →
     data !! i ≠ Some ndefTlv ∧ data !! i ≠ Some terminatorTlv) →
  (while_loop data k = None ∧ ∀ offset, ¬ first_ndef_tag data offset)
  ∨ (∃ offset, first_ndef_tag data offset).
Proof.
  induction n as [|n IH]; intros k Hn Hrun.
  - left. split.
    + rewrite while_loop_eq. case_decide; [lia|done].
    + intros offset [Htag Hbefore].
      apply lookup_lt_Some in Htag as Hlt.
      destruct (Hrun offset); [lia|done].
  - destruct (decide (k < length data)%nat) as [Hlt|Hge];
      [|apply IH; [lia|done]].
    destruct (decide (data !! k = Some ndefTlv)) as [Htag|Hno].
    { right. exists k. by split. }
    destruct (decide (data !! k = Some terminatorTlv)) as [Hend|Hgo].
    + left. split.
      * rewrite while_loop_eq, loop_body_terminator by done.
        by case_decide.
      * intros offset [Htag Hbefore].
        destruct (Nat.lt_trichotomy offset k) as [?|[->|?]].
        -- by destruct (Hrun offset).
        -- done.
        -- by destruct (Hbefore k).
    + destruct (IH (k + 1)%nat) as [[Hnone Hno_tag]|Hsome].
      * lia.
      * intros i ?. destruct (decide (i = k)) as [->|]; [done|].
        apply Hrun. lia.
      * left. split; [|done].
        rewrite while_loop_eq, loop_body_skip by done.
        by case_decide.
      * by right.
Qed.

Lemma value_at_in_bounds data offset i b :
  value_at data offset !! i = Some b →
  data !! (offset + 2 + i)%nat = Some b.
Proof.
  unfold value_at. destruct (data !! (offset + 1)%nat); [|done].
  rewrite lookup_take, lookup_drop. by case_decide.
Qed.

Lemma value_at_length data offset L :
  data !! (offset + 1)%nat = Some L →
  length (value_at data offset)
  = (declared L `min` (length data - (offset + 2)))%nat.
Proof.
  intros HL. unfold value_at. rewrite HL.
  by rewrite length_take, length_drop.
Qed.

(** C3.  When the first NDEF Message tag stands at [offset], declares
    [L] bytes and the buffer holds them all, [findNdefMessage] returns
    exactly the [L] bytes after the length byte.  The loop gets there by
    moving one byte past every unrecognized tag, returns at the tag, and
    nothing that follows the value (a second tag, say) changes the
    result. *)
Theorem findNdefMessage_exact data offset L :
  first_ndef_tag data offset →
  data !! (offset + 1)%nat = Some L →
  (offset + 2 + declared L ≤ length data)%nat →
  findNdefMessage data = Some (take (declared L) (drop (offset + 2) data))
  ∧ length (take (declared L) (drop (offset + 2) data)) = declared L
  ∧ (∀ i, (i < offset)%nat → loop_body data i = Continue (i + 1))
  ∧ loop_body data offset
    = Return (take (declared L) (drop (offset + 2) data))
  ∧ (∀ rest,
       findNdefMessage (take (offset + 2 + declared L) data ++ rest)
       = Some (take (declared L) (drop (offset + 2) data))).
Proof.
  intros Htag HL Hfits.
  assert (Hvalue :
    value_at data offset = take (declared L) (drop (offset + 2) data))
    by (unfold value_at; by rewrite HL).
  split; [by rewrite (findNdefMessage_at_tag _ offset), Hvalue|].
  split; [rewrite length_take, length_drop; lia|].
  split; [intros i Hi; destruct Htag as [_ Hrun];
          destruct (Hrun i Hi); by apply loop_body_skip|].
  split; [destruct Htag as [Hd _]; by rewrite loop_body_tag, Hvalue|].
  intros rest.
  set (data' := take (offset + 2 + declared L) data ++ rest).
  assert (Hsame : ∀ i, (i < offset + 2 + declared L)%nat →
                       data' !! i = data !! i).
  { intros i Hi. unfold data'.
    rewrite lookup_app_l by (rewrite length_take; lia).
    rewrite lookup_take. by case_decide. }
  rewrite (findNdefMessage_at_tag data' offset).
  - f_equal. unfold value_at. rewrite Hsame, HL by lia.
    apply list_eq. intros i.
    rewrite !lookup_take, !lookup_drop. case_decide; [|done].
    apply Hsame. lia.
  - destruct Htag as [Hd Hrun]. split.
    + rewrite Hsame by lia. done.
    + intros i Hi. rewrite Hsame by lia. by apply Hrun.
Qed.

Lemma findNdefMessage_exact_witness :
  findNdefMessage [x00; x03; x03; xd1; x01; x00; x03; xfe]
  = Some [xd1; x01; x00].
Proof.
  refine (proj1 (findNdefMessage_exact
                   [x00; x03; x03; xd1; x01; x00; x03; xfe] 1 x03 _ _ _)).
  - split; [reflexivity|].
    intros [|i] Hi; [split; discriminate | lia].
  - reflexivity.
  - vm_compute. lia.
Defined.

(** C1, as the code has it.  At the first NDEF Message tag, with the
    declared length [L] read from the buffer, [findNdefMessage] returns
    the bytes after the length byte, at most [L] of them: all [L] when
    the buffer holds them, and otherwise the shorter run up to the end
    of the buffer, not absent. *)
Theorem findNdefMessage_clamped data offset L :
  first_ndef_tag data offset →
  data !! (offset + 1)%nat = Some L →
  ∃ value,
    findNdefMessage data = Some value
    ∧ value = take (declared L) (drop (offset + 2) data)
    ∧ (length value ≤ declared L)%nat
    ∧ (length value = declared L
       ↔ (offset + 2 + declared L ≤ length data)%nat)
    ∧ ((length data < offset + 2 + declared L)%nat →
       value = drop (offset + 2) data).
Proof.
  intros Htag HL. exists (value_at data offset).
  pose proof (value_at_length data offset L HL) as Hlen.
  apply lookup_lt_Some in HL as Hlt.
  split; [by apply findNdefMessage_at_tag|].
  split; [unfold value_at; by rewrite HL|].
  split; [lia|]. split; [lia|].
  intros Hshort. unfold value_at. rewrite HL.
  apply take_ge. rewrite length_drop. lia.
Qed.

Lemma findNdefMessage_clamped_witness :
  ∃ value,
    findNdefMessage [x03; x05; x01] = Some value
    ∧ value = take (declared x05) (drop 2 [x03; x05; x01])
    ∧ (length value ≤ declared x05)%nat
    ∧ (length value = declared x05
       ↔ (0 + 2 + declared x05 ≤ length [x03; x05; x01])%nat)
    ∧ ((length [x03; x05; x01] < 0 + 2 + declared x05)%nat →
       value = drop 2 [x03; x05; x01]).
Proof.
  apply (findNdefMessage_clamped [x03; x05; x01] 0 x05).
  - split; [reflexivity | intros i Hi; lia].
  - reflexivity.
Defined.

(** C1 fails as stated: the tag at offset 0 declares 5 bytes, the buffer
    holds 1, and the result is that byte rather than absent. *)
Lemma findNdefMessage_overrun :
  first_ndef_tag [x03; x05; x01] 0
  ∧ [x03; x05; x01] !! 1%nat = Some x05
  ∧ (length [x03; x05; x01] < 0 + 2 + declared x05)%nat
  ∧ findNdefMessage [x03; x05; x01] = Some [x01]
  ∧ findNdefMessage [x03; x05; x01] ≠ None
  ∧ length [x01] ≠ declared x05.
Proof.
  split; [split; [reflexivity | intros i Hi; lia]|].
  split; [reflexivity|].
  split; [vm_compute; lia|].
  split; [reflexivity|].
  split; [discriminate | vm_compute; lia].
Qed.

(** C4, as the code has it.  [findNdefMessage] returns absent for every
    buffer that starts with the Terminator tag, for the empty buffer and
    for a one-byte buffer other than [[0x03]]; for [[0x03]] it returns an
    empty value. *)
Theorem findNdefMessage_absent :
  (∀ rest, findNdefMessage (terminatorTlv :: rest) = None)
  ∧ findNdefMessage [] = None
  ∧ (∀ b, findNdefMessage [b]
          = if decide (b = ndefTlv) then Some [] else None).
Proof.
  split; [|split].
  - intros rest. unfold findNdefMessage.
    rewrite while_loop_eq, loop_body_terminator by done.
    by case_decide.
  - reflexivity.
  - intros b. case_decide as Hb.
    + by subst b.
    + unfold findNdefMessage. rewrite while_loop_eq. simpl.
      destruct (decide (b = terminatorTlv)) as [->|Hb'].
      * by rewrite loop_body_terminator.
      * rewrite loop_body_skip by (simpl; congruence).
        rewrite while_loop_eq. by case_decide.
Qed.

(** C4 fails as stated: the one-byte buffer [[0x03]] is shorter than 2
    bytes and the result is an empty value, not absent. *)
Lemma findNdefMessage_one_byte_tag :
  (length [x03] < 2)%nat
  ∧ findNdefMessage [x03] = Some []
  ∧ findNdefMessage [x03] ≠ None.
Proof. split; [simpl; lia|]. split; [reflexivity | discriminate]. Qed.

(** C10.  [findNdefMessage] is defined on every buffer.  Either no NDEF
    Message tag can be reached and the result is absent, or the first one
    stands at some [offset] and the result is a value made of the bytes
    of the buffer from [offset + 2] on (never a byte outside it), of
    length [min(L, max(0, length - offset - 2))] for the declared length
    [L]; when the length byte is itself past the end, the value is empty,
    which is that formula for any [L]. *)
Theorem findNdefMessage_total data :
  (findNdefMessage data = None ∧ ∀ offset, ¬ first_ndef_tag data offset)
  ∨ (∃ offset value,
       first_ndef_tag data offset
       ∧ findNdefMessage data = Some value
       ∧ (∀ i b, value !! i = Some b →
                 data !! (offset + 2 + i)%nat = Some b)
       ∧ match data !! (offset + 1)%nat with
         | Some L =>
             Z.of_nat (length value)
             = Z.min (Z.of_nat (declared L))
                 (Z.max 0 (Z.of_nat (length data) - Z.of_nat offset - 2))
         | None =>
             length value = 0%nat
             ∧ Z.max 0 (Z.of_nat (length data) - Z.of_nat offset - 2) = 0%Z
         end).
Proof.
  destruct (while_loop_cases data (length data) 0) as [?|[offset Htag]];
    [lia | intros i ?; lia | by left |].
  right. exists offset, (value_at data offset).
  split; [done|]. split; [by apply findNdefMessage_at_tag|].
  split; [apply value_at_in_bounds|].
  destruct (data !! (offset + 1)%nat) as [L|] eqn:HL.
  - rewrite (value_at_length _ _ _ HL). lia.
  - unfold value_at. rewrite HL. split; [done|].
    apply lookup_ge_None in HL. lia.
Qed.
End scanner.

(** ** The prefix table *)

Section prefix_table.

(** The object literal against the table of the NFC Forum, key by key. *)
Lemma URI_PREFIXES_lookup (z : Z) :
  URI_PREFIXES !! z
  = if (z <? 0)%Z then None
    else lit <$> NFC_Forum_prefixes !! Z.to_nat z.
Proof.
  destruct (decide (0 ≤ z < 36)%Z) as [Hin|Hout].
  - replace (z <? 0)%Z with false by lia.
    rewrite <- (Z2Nat.id z) at 1 by lia.
    assert (Z.to_nat z < 36)%nat as Hn by lia.
    clear Hin. generalize dependent (Z.to_nat z). clear z. intros n Hn.
    do 36 (destruct n as [|n]; [vm_compute; reflexivity|]).
    lia.
  - assert (URI_PREFIXES !! z = None) as ->.
    { apply not_elem_of_list_to_map_1. cbn [fmap list_fmap fst].
      rewrite !elem_of_cons, elem_of_nil. lia. }
    case_match; [done|].
    rewrite lookup_ge_None_2; [done|].
    change (length NFC_Forum_prefixes) with 36%nat. lia.
Qed.

Lemma URI_PREFIXES_canonical (z : Z) :
  or_empty (URI_PREFIXES !! z) = canonical_prefix z.
Proof.
  rewrite URI_PREFIXES_lookup. unfold canonical_prefix.
  case_match; [done|].
  destruct (NFC_Forum_prefixes !! Z.to_nat z) as [p|]; [|done].
  simpl. by destruct (lit p).
Qed.

Lemma canonical_prefix_undefined (z : Z) :
  ¬ (0 ≤ z ≤ 0x23)%Z → canonical_prefix z = [].
Proof.
  intros Hout. unfold canonical_prefix. case_match; [done|].
  rewrite lookup_ge_None_2; [done|].
  change (length NFC_Forum_prefixes) with 36%nat. lia.
Qed.
End prefix_table.

(** ** The URI record resolver *)

Section resolver.
Implicit Types (data : Buffer) (console : list jsstring).

Lemma slice_from_1 data : slice_from data (Num 1) = drop 1 data.
Proof.
  unfold slice_from, slice, adjustOffset.
  destruct data as [|code [|b rest]]; [reflexivity..|].
  cbn [length]. 
  repeat case_match; try (exfalso; lia).
  change (Z.to_nat 1) with 1%nat.
  apply take_ge. rewrite length_drop. cbn [length]. lia.
Qed.

(** The run of [parseUriRecord], case by case on the payload. *)
Lemma parseUriRecord_run data console :
  parseUriRecord data console =
  match data with
  | code :: (_ :: _) as uriData =>
      let prefix := or_empty (URI_PREFIXES !! byte_value code) in
      let uri := toString_utf8 uriData in
      (inl (Some {| prefixCode := code;
                    prefix := prefix;
                    uri := uri;
                    fullUri := prefix ++ uri;
                    raw := {| raw_prefixCode := code;
                              raw_uriData := toString_hex uriData |} |}),
       console ++ logged code uriData)
  | _ => (inl None, console)
  end.
Proof.
  unfold parseUriRecord.
  destruct data as [|code [|b rest]]; [reflexivity..|].
  case_decide; [cbn [length] in *; lia|].
  rewrite slice_from_1.
  change ((code :: b :: rest) !! 0%nat) with (Some code).
  change (drop 1 (code :: b :: rest)) with (b :: rest).
  cbv [mbind IO_bind defined console_log mret IO_ret logged].
  rewrite <- app_assoc. reflexivity.
Qed.

(** The value returned does not depend on what the console holds. *)
Lemma parseUriRecord_console data console :
  parseUriRecord data console
  = (fst (parseUriRecord data []),
     console ++ snd (parseUriRecord data [])).
Proof.
  rewrite !parseUriRecord_run.
  destruct data as [|code [|b rest]]; cbn [fst snd app];
    by rewrite ?app_nil_r.
Qed.

(** C2, as the code has it.  [parseUriRecord] never throws.  It returns
    [null] exactly when the payload has fewer than two bytes; on a
    payload of two bytes or more it returns a record whose prefix is the
    table's entry for [payload[0]] (or the empty string) and whose [uri]
    is [payload[1:]] decoded as UTF-8. *)
Theorem parseUriRecord_result data console :
  if decide (length data < 2)%nat then
    fst (parseUriRecord data console) = inl None
  else
    ∃ code r,
      data !! 0%nat = Some code
      ∧ fst (parseUriRecord data console) = inl (Some r)
      ∧ prefixCode r = code
      ∧ prefix r = or_empty (URI_PREFIXES !! byte_value code)
      ∧ uri r = toString_utf8 (drop 1 data)
      ∧ fullUri r = prefix r ++ uri r.
Proof.
  rewrite parseUriRecord_run.
  destruct data as [|code [|b rest]]; case_decide;
    try done; try (cbn [length] in *; lia).
  eexists code, _. by repeat split.
Qed.

(** C2 fails as stated: a one-byte payload is not empty, and the result
    is [null], not the bare prefix. *)
Lemma parseUriRecord_one_byte :
  length [x04] ≠ 0%nat
  ∧ fst (parseUriRecord [x04] []) = inl None.
Proof. split; [discriminate | reflexivity]. Qed.

(** C5.  The object [URI_PREFIXES] has the 36 entries of the NFC Forum
    table.  On a payload [parseUriRecord] accepts, the prefix returned
    for a code in [0x00 .. 0x23] is the entry of that table ([0x04] gives
    ["https://"], [0x00] the empty string), and for any other code it is
    the empty string, with a record returned all the same. *)
Theorem parseUriRecord_prefix data console code :
  data !! 0%nat = Some code →
  (2 ≤ length data)%nat →
  (size URI_PREFIXES = 36%nat ∧ length NFC_Forum_prefixes = 36%nat
   ∧ URI_PREFIXES !! 0x04%Z = Some (lit "https://")
   ∧ URI_PREFIXES !! 0x00%Z = Some [])
  ∧ ∃ r,
      fst (parseUriRecord data console) = inl (Some r)
      ∧ ((byte_value code ≤ 0x23)%Z →
         ∃ p, NFC_Forum_prefixes !! Z.to_nat (byte_value code) = Some p
              ∧ prefix r = lit p)
      ∧ ((0x23 < byte_value code)%Z → prefix r = []).
Proof.
  intros Hcode Hlen. split; [by vm_compute|].
  rewrite parseUriRecord_run.
  destruct data as [|code' [|b rest]]; try (cbn [length] in *; lia).
  injection Hcode as ->.
  eexists. split; [done|]. cbn [prefix].
  rewrite URI_PREFIXES_canonical.
  assert (0 ≤ byte_value code)%Z by (unfold byte_value; lia).
  split.
  - intros Hin.
    destruct (NFC_Forum_prefixes !! Z.to_nat (byte_value code))
      as [p|] eqn:Hp.
    + exists p. split; [done|].
      unfold canonical_prefix. rewrite Hp. by case_match; [lia|].
    + apply lookup_ge_None in Hp.
      change (length NFC_Forum_prefixes) with 36%nat in Hp. lia.
  - intros Hout. apply canonical_prefix_undefined. lia.
Qed.

Lemma parseUriRecord_prefix_witness :
  ∃ r,
    fst (parseUriRecord [x04; x41] []) = inl (Some r)
    ∧ ((byte_value x04 ≤ 0x23)%Z →
       ∃ p, NFC_Forum_prefixes !! Z.to_nat (byte_value x04) = Some p
            ∧ prefix r = lit p)
    ∧ ((0x23 < byte_value x04)%Z → prefix r = []).
Proof.
  refine (proj2 (parseUriRecord_prefix [x04; x41] [] x04 _ _)).
  - reflexivity.
  - simpl. lia.
Defined.

(** C6.  The two scenario payloads give ["https://google.com"] and
    ["AB"], and in every record returned [fullUri] is [prefix] followed
    by [uri]. *)
Theorem parseUriRecord_scenarios :
  (∃ r, fst (parseUriRecord
               [x04; x67; x6f; x6f; x67; x6c; x65; x2e; x63; x6f; x6d] [])
        = inl (Some r)
        ∧ fullUri r = lit "https://google.com")
  ∧ (∃ r, fst (parseUriRecord [x00; x41; x42] []) = inl (Some r)
          ∧ fullUri r = lit "AB")
  ∧ ∀ data console r,
      fst (parseUriRecord data console) = inl (Some r) →
      fullUri r = prefix r ++ uri r.
Proof.
  split; [eexists; split; vm_compute; reflexivity|].
  split; [eexists; split; vm_compute; reflexivity|].
  intros data console r. rewrite parseUriRecord_run.
  destruct data as [|code [|b rest]]; try done.
  cbn [fst].
  match goal with
  | |- inl (Some ?v) = _ → _ => remember v as r' eqn:Hr'
  end.
  intros [= <-]. rewrite Hr'. reflexivity.
Qed.

Lemma parseUriRecord_scenarios_witness :
  ∃ r, fst (parseUriRecord [x00; x41; x42] []) = inl (Some r)
       ∧ fullUri r = prefix r ++ uri r.
Proof.
  eexists. split; [reflexivity|].
  by apply (proj2 (proj2 parseUriRecord_scenarios) [x00; x41; x42] []).
Defined.

(** C8.  Two runs of [parseUriRecord] on payloads with the same bytes
    return the same result (the same [prefixCode], [prefix], [uri] and
    [fullUri], or [null] both times), whatever the console holds, and so
    does a second run that follows the first. *)
Theorem parseUriRecord_deterministic data1 data2 console1 console2 :
  (∀ i : nat, data1 !! i = data2 !! i) →
  fst (parseUriRecord data1 console1) = fst (parseUriRecord data2 console2)
  ∧ fst (parseUriRecord data2 (snd (parseUriRecord data1 console1)))
    = fst (parseUriRecord data1 console1).
Proof.
  intros Hsame. apply list_eq in Hsame as ->.
  rewrite (parseUriRecord_console data2 console1).
  rewrite (parseUriRecord_console data2 console2).
  by rewrite (parseUriRecord_console data2 (snd _)).
Qed.

Lemma parseUriRecord_deterministic_witness :
  fst (parseUriRecord [x04; x41] []) = fst (parseUriRecord [x04; x41] [[0]])
  ∧ fst (parseUriRecord [x04; x41] (snd (parseUriRecord [x04; x41] [])))
    = fst (parseUriRecord [x04; x41] []).
Proof.
  apply (parseUriRecord_deterministic [x04; x41] [x04; x41] [] [[0]]).
  reflexivity.
Defined.
End resolver.

(** ** Decimal rendering and [parseInt] *)

Section decimal.
Implicit Types (n d c : N) (z : Z) (s : jsstring).

Lemma to_digits_eq radix n :
  to_digits radix n =
  if decide (n < radix ∨ radix < 2) then [n]
  else to_digits radix (n / radix) ++ [n mod radix].
Proof. funelim (to_digits radix n); by case_decide. Qed.

(** The decimal digits of [n]: each below ten, at least one, and they
    read back as [n]. *)
Lemma to_digits_10 n :
  Forall (λ d, d < 10) (to_digits 10 n)
  ∧ to_digits 10 n ≠ []
  ∧ fold_left (λ acc d, 10 * acc + d) (to_digits 10 n) 0 = n.
Proof.
  induction n as [n IH] using (well_founded_induction N.lt_wf_0).
  rewrite to_digits_eq. case_decide as Hsmall.
  - split; [apply Forall_singleton; lia|]. split; [done|]. simpl. lia.
  - destruct (IH (n / 10)) as (Hall & Hne & Hval).
    { apply N.div_lt; lia. }
    split; [|split].
    + apply Forall_app. split; [done|].
      apply Forall_singleton. apply N.mod_lt. lia.
    + by destruct (to_digits 10 (n / 10)).
    + rewrite fold_left_app, Hval. simpl.
      pose proof (N.div_mod n 10). lia.
Qed.

Lemma is_digit_not_white_space c :
  is_digit c = true → is_white_space c = false.
Proof. unfold is_digit, is_white_space. lia. Qed.

Lemma N_toString_10_digits n : Forall (λ c, is_digit c = true) (N_toString 10 n).
Proof.
  unfold N_toString. apply Forall_fmap.
  eapply Forall_impl; [apply to_digits_10|].
  intros d Hd. unfold is_digit, digit_char, compose. cbv beta in Hd.
  replace (d <? 10) with true by lia. lia.
Qed.

Lemma N_toString_10_nonempty n : N_toString 10 n ≠ [].
Proof.
  unfold N_toString. pose proof (to_digits_10 n) as (_ & Hne & _).
  by destruct (to_digits 10 n).
Qed.

(** Reading the digit characters back, from any accumulator. *)
Lemma fold_digit_chars (ds : list N) : ∀ acc,
  Forall (λ d, d < 10) ds →
  fold_left (λ a c, 10 * a + Z.of_N (c - 48))%Z (map digit_char ds)
    (Z.of_N acc)
  = Z.of_N (fold_left (λ a d, 10 * a + d) ds acc).
Proof.
  induction ds as [|d ds IH]; intros acc Hall; [done|].
  apply Forall_cons in Hall as [Hd Hall]. simpl.
  rewrite <- IH by done. f_equal.
  unfold digit_char. cbv beta in Hd.
  replace (d <? 10) with true by lia. lia.
Qed.

Lemma N_toString_10_value n :
  fold_left (λ a c, 10 * a + Z.of_N (c - 48))%Z (N_toString 10 n) 0%Z
  = Z.of_N n.
Proof.
  pose proof (to_digits_10 n) as (Hall & _ & Hval).
  unfold N_toString. change 0%Z with (Z.of_N 0).
  rewrite (fold_digit_chars _ 0 Hall). by rewrite Hval.
Qed.

Lemma take_while_all {A} (p : A → bool) (l : list A) :
  Forall (λ x, p x = true) l → take_while p l = l.
Proof.
  induction 1 as [|x l Hx _ IH]; [done|]. simpl. by rewrite Hx, IH.
Qed.

Lemma drop_while_none {A} (p : A → bool) (l : list A) :
  Forall (λ x, p x = false) l → drop_while p l = l.
Proof. destruct 1 as [|x l Hx _]; [done|]. simpl. by rewrite Hx. Qed.

Lemma Z_toString_no_white_space z :
  Forall (λ c, is_white_space c = false) (Z_toString z).
Proof.
  unfold Z_toString. case_match.
  - apply Forall_cons. split; [done|].
    eapply Forall_impl; [apply N_toString_10_digits|].
    apply is_digit_not_white_space.
  - eapply Forall_impl; [apply N_toString_10_digits|].
    apply is_digit_not_white_space.
Qed.

Lemma Z_toString_no_comma z : Forall (λ c, c ≠ 44) (Z_toString z).
Proof.
  unfold Z_toString. case_match.
  - apply Forall_cons. split; [done|].
    eapply Forall_impl; [apply N_toString_10_digits|].
    intros c. unfold is_digit. lia.
  - eapply Forall_impl; [apply N_toString_10_digits|].
    intros c. unfold is_digit. lia.
Qed.

(** A rendered integer has no white space to trim. *)
Lemma trim_Z_toString z : trim (Z_toString z) = Z_toString z.
Proof.
  pose proof (Z_toString_no_white_space z) as Hall.
  unfold trim. rewrite (drop_while_none _ _ Hall).
  rewrite drop_while_none by by apply Forall_reverse.
  apply reverse_involutive.
Qed.

(** [parseInt] reads a rendered integer back. *)
Lemma parseInt10_Z_toString z : parseInt10 (Z_toString z) = Num z.
Proof.
  unfold parseInt10.
  rewrite (drop_while_none _ _ (Z_toString_no_white_space z)).
  unfold Z_toString. destruct (Z.ltb_spec z 0).
  - cbv beta iota.
    rewrite (take_while_all _ _ (N_toString_10_digits _)).
    pose proof (N_toString_10_nonempty (Z.to_N (- z))).
    pose proof (N_toString_10_value (Z.to_N (- z))) as Hval.
    destruct (N_toString 10 (Z.to_N (- z))) as [|c s] eqn:Hs; [done|].
    rewrite Hval. f_equal. lia.
  - pose proof (N_toString_10_nonempty (Z.to_N z)).
    pose proof (N_toString_10_value (Z.to_N z)) as Hval.
    pose proof (N_toString_10_digits (Z.to_N z)) as Hdig.
    destruct (N_toString 10 (Z.to_N z)) as [|c s] eqn:Hs; [done|].
    assert (c ≠ 45 ∧ c ≠ 43) as [? ?].
    { apply Forall_cons in Hdig as [Hc _]. unfold is_digit in Hc. lia. }
    assert (match c :: s with
            | 45 :: s' => ((-1)%Z, s')
            | 43 :: s' => (1%Z, s')
            | _ => (1%Z, c :: s)
            end = (1%Z, c :: s)) as ->.
    { destruct c as [|p]; [done|].
      repeat (destruct p as [p|p|]; try done). }
    rewrite (take_while_all _ _ Hdig), Hval. f_equal. lia.
Qed.
End decimal.

(** ** Splitting and joining *)

Section split_join.
Implicit Types (sep c : N) (piece s : jsstring) (pieces : list jsstring).

Lemma split_no_sep sep piece :
  Forall (λ c, c ≠ sep) piece → split sep piece = [piece].
Proof.
  induction 1 as [|c piece Hc _ IH]; [done|]. simpl.
  apply N.eqb_neq in Hc. by rewrite Hc, IH.
Qed.

Lemma split_app sep piece s :
  Forall (λ c, c ≠ sep) piece →
  split sep (piece ++ sep :: s) = piece :: split sep s.
Proof.
  induction 1 as [|c piece Hc _ IH]; simpl.
  - by rewrite N.eqb_refl.
  - apply N.eqb_neq in Hc. by rewrite Hc, IH.
Qed.

(** Splitting a joined list of pieces that hold no separator gives the
    pieces back. *)
Lemma split_join sep pieces :
  pieces ≠ [] →
  Forall (Forall (λ c, c ≠ sep)) pieces →
  split sep (join [sep] pieces) = pieces.
Proof.
  intros Hne Hall. induction Hall as [|piece pieces Hpiece Hall IH]; [done|].
  destruct pieces as [|piece' pieces].
  - by apply split_no_sep.
  - change (join [sep] (piece :: piece' :: pieces))
      with (piece ++ sep :: join [sep] (piece' :: pieces)).
    rewrite split_app by done. by rewrite IH.
Qed.

Lemma join_empty_sep pieces : join [] pieces = mjoin pieces.
Proof.
  induction pieces as [|piece [|piece' pieces] IH]; [done| |].
  - simpl. by rewrite app_nil_r.
  - change (join [] (piece :: piece' :: pieces))
      with (piece ++ join [] (piece' :: pieces)).
    by rewrite IH.
Qed.
End split_join.

(** ** The legacy decode path *)

Section legacy.
Implicit Types (codes : list Z) (data : Buffer).

(** On the rendering of a list of integers, [decodePayload] has the
    integers themselves as its [numbers]. *)
Lemma numbers_of_render codes :
  codes ≠ [] →
  map (λ num, parseInt10 (trim num)) (split 44 (render codes))
  = map Num codes.
Proof.
  intros Hne. unfold render. rewrite split_join.
  - rewrite map_map. apply map_ext. intros z.
    by rewrite trim_Z_toString, parseInt10_Z_toString.
  - by destruct codes.
  - apply Forall_fmap, Forall_true. intros z. apply Z_toString_no_comma.
Qed.

Lemma decodePayload_render codes :
  decodePayload (render codes)
  = resolved_full (resolveUriFromCodeList codes).
Proof.
  destruct codes as [|code codes]; [by vm_compute|].
  unfold decodePayload. rewrite numbers_of_render by done.
  unfold resolveUriFromCodeList. cbn [resolved_full head tail].
  rewrite join_empty_sep. cbn [map lookup list_lookup drop fmap option_fmap option_map].
  rewrite drop_0, map_map. reflexivity.
Qed.

(** ASCII bytes decode to themselves. *)
Lemma utf8_run_ascii (bytes : list N) :
  Forall (λ b, b < 0x80) bytes → utf8_run Start bytes = bytes.
Proof.
  induction 1 as [|b bytes Hb _ IH]; [done|].
  cbn [utf8_run utf8_step]. unfold utf8_lead.
  replace (b <=? 0x7F) with true by lia.
  by rewrite IH.
Qed.

Lemma toString_utf8_ascii data :
  Forall (λ b, Byte.to_N b < 0x80) data →
  toString_utf8 data = map Byte.to_N data.
Proof.
  intros Hascii. unfold toString_utf8.
  rewrite utf8_run_ascii by by apply Forall_fmap.
  induction Hascii as [|b data Hb _ IH]; [done|].
  cbn [map mjoin list_join]. unfold utf16_units at 1.
  replace (to_N b <? 0x10000) with true by lia.
  cbn [app]. f_equal. exact IH.
Qed.

Lemma chr_byte_value (b : byte) : chr (byte_value b) = [Byte.to_N b].
Proof.
  unfold chr, fromCharCode, byte_value. f_equal.
  pose proof (Byte.to_N_bounded b).
  rewrite Z.mod_small by lia. lia.
Qed.

Lemma chr_bytes data :
  mjoin (map chr (map byte_value data)) = map Byte.to_N data.
Proof.
  induction data as [|b data IH]; [done|].
  cbn [map mjoin list_join]. rewrite chr_byte_value.
  cbn [app]. f_equal. exact IH.
Qed.

(** C7.  On the comma-separated rendering of a list of integer codes
    (integers a JavaScript number holds exactly), [decodePayload] gives
    what [resolveUriFromCodeList] specifies: the prefix that the same table
    has for the first code, followed by the characters of the other codes.
    The legacy payload ["4,103,111,111,103,108,101"] gives
    ["https://google"]. *)
Theorem decodePayload_code_list codes :
  Forall safe_integer codes →
  decodePayload (render codes)
  = resolved_full (resolveUriFromCodeList codes)
  ∧ resolved_prefix (resolveUriFromCodeList codes)
    = or_empty (URI_PREFIXES_get (Num <$> head codes))
  ∧ resolved_suffix (resolveUriFromCodeList codes)
    = mjoin (map chr (tail codes))
  ∧ render [4; 103; 111; 111; 103; 108; 101]%Z
    = lit "4,103,111,111,103,108,101"
  ∧ decodePayload (lit "4,103,111,111,103,108,101")
    = lit "https://google".
Proof.
  intros _. split; [apply decodePayload_render|].
  split; [done|]. split; [done|]. split; by vm_compute.
Qed.

Lemma decodePayload_code_list_witness :
  decodePayload (render [4; 103; 111; 111; 103; 108; 101]%Z)
  = resolved_full
      (resolveUriFromCodeList [4; 103; 111; 111; 103; 108; 101]%Z).
Proof.
  refine (proj1 (decodePayload_code_list
                   [4; 103; 111; 111; 103; 108; 101]%Z _)).
  repeat (apply Forall_cons; split; [unfold safe_integer; lia|]).
  apply Forall_nil_2.
Defined.

(** C9.  On a payload of two bytes or more whose bytes after the first
    are ASCII, the [fullUri] of [parseUriRecord] is the string
    [decodePayload] gives on the comma-separated decimal rendering of the
    same bytes. *)
Theorem decode_paths_agree data console :
  (2 ≤ length data)%nat →
  Forall (λ b, Byte.to_N b < 0x80) (drop 1 data) →
  ∃ r,
    fst (parseUriRecord data console) = inl (Some r)
    ∧ fullUri r = decodePayload (render (map byte_value data)).
Proof.
  intros Hlen Hascii. rewrite parseUriRecord_run.
  destruct data as [|code [|b rest]]; try (cbn [length] in *; lia).
  eexists. split; [reflexivity|]. cbn [fullUri].
  rewrite decodePayload_render.
  change (map byte_value (code :: b :: rest))
    with (byte_value code :: map byte_value (b :: rest)).
  unfold resolveUriFromCodeList. cbn [resolved_full head tail].
  change (drop 1 (code :: b :: rest)) with (b :: rest) in Hascii.
  rewrite chr_bytes, toString_utf8_ascii by done.
  reflexivity.
Qed.

Lemma decode_paths_agree_witness :
  ∃ r,
    fst (parseUriRecord [x04; x67; x6f; x6f; x67; x6c; x65] [])
    = inl (Some r)
    ∧ fullUri r
      = decodePayload
          (render (map byte_value [x04; x67; x6f; x6f; x67; x6c; x65])).
Proof.
  apply (decode_paths_agree [x04; x67; x6f; x6f; x67; x6c; x65] []).
  - simpl. lia.
  - repeat (apply Forall_cons; split; [vm_compute; reflexivity|]).
    apply Forall_nil_2.
Defined.
End legacy.

(** ** More on the TLV scanner *)

Section scanner_more.
Implicit Types (data junk more value : Buffer) (offset : nat).

(** A value is returned only at a first NDEF Message tag, and is the run of
    bytes behind its length byte. *)
Lemma findNdefMessage_Some data value :
  findNdefMessage data = Some value →
  ∃ offset, first_ndef_tag data offset ∧ value = value_at data offset.
Proof.
  intros Hres.
  destruct (while_loop_cases data (length data) 0) as [[Hnone _]|[offset Htag]];
    [lia | intros i ?; lia | |].
  - unfold findNdefMessage in Hres. congruence.
  - exists offset. split; [done|].
    rewrite (findNdefMessage_at_tag _ _ Htag) in Hres. congruence.
Qed.

(** Up to any index, either the byte [t] has not been seen or there is a
    first place where it stands. *)
Lemma first_occurrence (t : byte) data (i : nat) :
  (∀ k, (k < i)%nat → data !! k ≠ Some t)
  ∨ (∃ j, (j < i)%nat ∧ data !! j = Some t
          ∧ ∀ k, (k < j)%nat → data !! k ≠ Some t).
Proof.
  induction i as [|i [Hnone|(j & Hj & Htag & Hleast)]].
  - left. intros k ?. lia.
  - destruct (decide (data !! i = Some t)) as [Htag|Hno].
    + right. exists i. split; [lia|]. by split.
    + left. intros k Hk.
      destruct (decide (k = i)) as [->|]; [done|]. apply Hnone. lia.
  - right. exists j. split; [lia|]. by split.
Qed.

(** X1.  [findNdefMessage] returns [null] exactly when every NDEF Message
    tag byte of the buffer has a Terminator byte somewhere before it (in
    particular when the buffer has no such tag byte at all). *)
Theorem findNdefMessage_None_iff data :
  findNdefMessage data = None
  ↔ ∀ i, data !! i = Some ndefTlv →
         ∃ k, (k < i)%nat ∧ data !! k = Some terminatorTlv.
Proof.
  split.
  - intros Hnone i Htag.
    destruct (first_occurrence terminatorTlv data i)
      as [Hno_end|(k & Hk & Hend & _)]; [|by exists k].
    exfalso.
    destruct (first_occurrence ndefTlv data (S i))
      as [Hno|(j & Hj & Hj_tag & Hleast)].
    { by apply (Hno i); [lia|]. }
    assert (first_ndef_tag data j) as Hfirst.
    { split; [done|]. intros k Hk. split; [by apply Hleast|].
      apply Hno_end. lia. }
    rewrite (findNdefMessage_at_tag _ _ Hfirst) in Hnone. done.
  - intros Hguarded.
    destruct (findNdefMessage data) as [value|] eqn:Hres; [|done].
    apply findNdefMessage_Some in Hres as (offset & [Htag Hrun] & _).
    destruct (Hguarded offset Htag) as (k & Hk & Hend).
    by destruct (Hrun k Hk).
Qed.

(** The loop on a buffer with one more byte in front, one offset later. *)
Lemma while_loop_cons (b : byte) data (n : nat) : ∀ offset,
  (length data - offset ≤ n)%nat →
  while_loop (b :: data) (S offset) = while_loop data offset.
Proof.
  induction n as [|n IH]; intros offset Hn.
  - rewrite !while_loop_eq. repeat case_decide; simpl in *; try lia. done.
  - rewrite (while_loop_eq (b :: data)), (while_loop_eq data).
    repeat case_decide; simpl in *; try lia; [|done].
    destruct (decide (data !! offset = Some ndefTlv)) as [Htag|Hno].
    { rewrite !loop_body_tag by done. f_equal. }
    destruct (decide (data !! offset = Some terminatorTlv)) as [Hend|Hgo].
    { by rewrite !loop_body_terminator. }
    rewrite !loop_body_skip by done.
    replace (S offset + 1)%nat with (S (offset + 1)) by lia.
    apply IH. lia.
Qed.

(** X2.  Bytes in front of the message that are neither tag are skipped
    one at a time, whatever TLV structure they have: they do not change the
    result. *)
Theorem findNdefMessage_skips_junk junk data :
  Forall (λ b, b ≠ ndefTlv ∧ b ≠ terminatorTlv) junk →
  findNdefMessage (junk ++ data) = findNdefMessage data.
Proof.
  induction 1 as [|b junk [Hb Hb'] _ IH]; [done|].
  rewrite <- IH. unfold findNdefMessage.
  rewrite (while_loop_eq ((b :: junk) ++ data)).
  case_decide; [|simpl in *; lia].
  rewrite loop_body_skip by (simpl; congruence).
  apply (while_loop_cons b (junk ++ data) (length (junk ++ data)) 0). lia.
Qed.

Lemma findNdefMessage_skips_junk_witness :
  findNdefMessage ([x01; x00; x34] ++ [x03; x01; xd1; xfe])
  = findNdefMessage [x03; x01; xd1; xfe].
Proof.
  apply (findNdefMessage_skips_junk [x01; x00; x34] [x03; x01; xd1; xfe]).
  repeat (apply Forall_cons; split; [split; discriminate|]).
  apply Forall_nil_2.
Defined.

(** X3.  A returned value has at most 255 bytes (the length is one byte;
    the three-byte length format is not read), the buffer is not empty,
    and a value that is not empty leaves room for the tag and length
    bytes. *)
Theorem findNdefMessage_value_bounds data value :
  findNdefMessage data = Some value →
  (length value ≤ 255)%nat
  ∧ data ≠ []
  ∧ (value ≠ [] → length value + 2 ≤ length data)%nat.
Proof.
  intros (offset & [Htag _] & ->)%findNdefMessage_Some.
  apply lookup_lt_Some in Htag as Hlt.
  split; [|split].
  - unfold value_at. destruct (data !! (offset + 1)%nat) as [L|]; [|simpl; lia].
    rewrite length_take. pose proof (Byte.to_N_bounded L).
    unfold declared. lia.
  - intros ->. simpl in Hlt. lia.
  - unfold value_at. destruct (data !! (offset + 1)%nat) as [L|]; [|done].
    intros Hne. rewrite length_take, length_drop.
    assert (length (take (declared L) (drop (offset + 2) data)) ≠ 0)%nat
      as Hpos by (by destruct (take _ _)).
    rewrite length_take, length_drop in Hpos. lia.
Qed.

Lemma findNdefMessage_value_bounds_witness :
  (length [xd1] ≤ 255)%nat
  ∧ [x03; x01; xd1; xfe] ≠ []
  ∧ ([xd1] ≠ [] → length [xd1] + 2 ≤ length [x03; x01; xd1; xfe])%nat.
Proof.
  apply (findNdefMessage_value_bounds [x03; x01; xd1; xfe] [xd1]).
  reflexivity.
Defined.

(** X4.  Reading more of the card never loses a message: when a value is
    found in a buffer, one is found in every extension of the buffer, and
    it starts with the value found before. *)
Theorem findNdefMessage_extend data more value :
  findNdefMessage data = Some value →
  ∃ value',
    findNdefMessage (data ++ more) = Some value' ∧ value `prefix_of` value'.
Proof.
  intros (offset & [Htag Hrun] & ->)%findNdefMessage_Some.
  apply lookup_lt_Some in Htag as Hlt.
  exists (value_at (data ++ more) offset). split.
  - apply findNdefMessage_at_tag. split.
    + by rewrite lookup_app_l.
    + intros i Hi. rewrite lookup_app_l by lia. by apply Hrun.
  - unfold value_at.
    destruct (data !! (offset + 1)%nat) as [L|] eqn:HL;
      [|apply prefix_nil].
    apply lookup_lt_Some in HL as HltL.
    rewrite lookup_app_l, HL by done.
    rewrite drop_app_le by lia. rewrite take_app.
    by apply prefix_app_r.
Qed.

Lemma findNdefMessage_extend_witness :
  ∃ value',
    findNdefMessage ([x03; x02; xd1] ++ [x01; xfe]) = Some value'
    ∧ [xd1] `prefix_of` value'.
Proof.
  apply (findNdefMessage_extend [x03; x02; xd1] [x01; xfe] [xd1]).
  reflexivity.
Defined.
End scanner_more.

(** ** More on the URI record resolver *)

Section resolver_more.
Implicit Types (data : Buffer) (console : list jsstring) (b code : byte).

(** The two hex digits of a byte. *)
Lemma hex_of_byte b :
  padStart (N_toString 16 (Byte.to_N b)) 2 48
  = [digit_char (Byte.to_N b / 16); digit_char (Byte.to_N b mod 16)].
Proof.
  pose proof (Byte.to_N_bounded b) as Hb.
  unfold N_toString. rewrite to_digits_eq. case_decide as Hsmall.
  - replace (Byte.to_N b / 16) with 0
      by (symmetry; apply N.div_small; lia).
    rewrite N.mod_small by lia. reflexivity.
  - rewrite to_digits_eq. case_decide as Hhigh; [reflexivity|].
    exfalso. apply Hhigh. left. apply N.Div0.div_lt_upper_bound; lia.
Qed.

Lemma digit_char_inj (d1 d2 : N) :
  d1 < 16 → d2 < 16 → digit_char d1 = digit_char d2 → d1 = d2.
Proof.
  unfold digit_char. intros ? ?.
  destruct (N.ltb_spec d1 10), (N.ltb_spec d2 10); lia.
Qed.

Lemma hex_of_byte_inj b1 b2 :
  padStart (N_toString 16 (Byte.to_N b1)) 2 48
  = padStart (N_toString 16 (Byte.to_N b2)) 2 48 →
  b1 = b2.
Proof.
  rewrite !hex_of_byte. intros [= Hhigh Hlow].
  pose proof (Byte.to_N_bounded b1). pose proof (Byte.to_N_bounded b2).
  apply digit_char_inj in Hhigh;
    [|apply N.Div0.div_lt_upper_bound; lia..].
  apply digit_char_inj in Hlow; [|apply N.mod_lt; lia..].
  assert (Byte.to_N b1 = Byte.to_N b2) as Heq.
  { rewrite (N.div_mod (Byte.to_N b1) 16), (N.div_mod (Byte.to_N b2) 16)
      by lia. by rewrite Hhigh, Hlow. }
  apply (f_equal Byte.of_N) in Heq. rewrite !Byte.of_to_N in Heq.
  by injection Heq.
Qed.

Lemma toString_hex_cons b data :
  toString_hex (b :: data)
  = digit_char (Byte.to_N b / 16) :: digit_char (Byte.to_N b mod 16)
      :: toString_hex data.
Proof.
  change (toString_hex (b :: data))
    with (padStart (N_toString 16 (Byte.to_N b)) 2 48 ++ toString_hex data).
  by rewrite hex_of_byte.
Qed.

(** The hex dump has two characters per byte and tells buffers apart. *)
Lemma toString_hex_length data :
  length (toString_hex data) = (2 * length data)%nat.
Proof.
  induction data as [|b data IH]; [done|].
  rewrite toString_hex_cons. cbn [length]. lia.
Qed.

Lemma toString_hex_inj data1 : ∀ data2,
  toString_hex data1 = toString_hex data2 → data1 = data2.
Proof.
  induction data1 as [|b1 data1 IH]; intros [|b2 data2];
    rewrite ?toString_hex_cons; try done.
  intros [= Hhigh Hlow Hrest].
  f_equal; [|by apply IH].
  apply hex_of_byte_inj. rewrite !hex_of_byte. by rewrite Hhigh, Hlow.
Qed.

(** X5.  The [raw] field of the record keeps the payload whole: its hex
    dump has two characters for each byte after the prefix code, its
    prefix code is the record's, and two payloads with the same [raw]
    field are the same payload. *)
Theorem parseUriRecord_raw_lossless data1 data2 console1 console2 r1 r2 :
  fst (parseUriRecord data1 console1) = inl (Some r1) →
  fst (parseUriRecord data2 console2) = inl (Some r2) →
  length (raw_uriData (raw r1)) = (2 * (length data1 - 1))%nat
  ∧ raw_prefixCode (raw r1) = prefixCode r1
  ∧ (raw r1 = raw r2 → data1 = data2).
Proof.
  rewrite !parseUriRecord_run.
  destruct data1 as [|code1 [|b1 rest1]]; try done.
  destruct data2 as [|code2 [|b2 rest2]]; try done.
  cbn [fst].
  repeat match goal with
         | |- inl (Some ?v) = _ → _ =>
             let r := fresh "r" in remember v as r; intros [= <-]; subst r
         end.
  cbn [raw raw_uriData raw_prefixCode prefixCode].
  split; [|split; [done|]].
  - rewrite toString_hex_length. cbn [length]. lia.
  - intros [= -> Hhex]. f_equal. by apply toString_hex_inj.
Qed.

Lemma parseUriRecord_raw_lossless_witness :
  ∃ r, fst (parseUriRecord [x04; x41] []) = inl (Some r)
       ∧ length (raw_uriData (raw r)) = (2 * (length [x04; x41] - 1))%nat.
Proof.
  eexists. split; [reflexivity|].
  refine (proj1 (parseUriRecord_raw_lossless
                   [x04; x41] [x04; x41] [] [] _ _ _ _)); reflexivity.
Defined.

(** What one step of the UTF-8 decoder may emit: a byte read gives at most
    one code unit more than it pays for, and an open sequence has one byte
    of credit. *)
Lemma utf8_lead_budget (b : N) st out :
  utf8_lead b = (st, out) →
  (length (mjoin (map utf16_units out))
   + match st with Start => 0 | Pending _ _ _ _ => 1 end ≤ 1)%nat.
Proof.
  unfold utf8_lead. intros Hlead.
  destruct (N.leb_spec b 0x7F).
  { injection Hlead as <- <-. cbn [map mjoin list_join].
    unfold utf16_units. replace (b <? 0x10000) with true by lia.
    cbn [app length]. lia. }
  repeat match type of Hlead with
         | (if ?c then _ else _) = _ =>
             destruct c; [injection Hlead as <- <-; cbn; lia|]
         end.
  injection Hlead as <- <-. cbn. lia.
Qed.

Lemma utf16_units_length (cp : N) : (length (utf16_units cp) ≤ 2)%nat.
Proof. unfold utf16_units. case_match; simpl; lia. Qed.

Lemma utf8_step_budget st (b : N) st' out :
  utf8_step st b = (st', out) →
  (length (mjoin (map utf16_units out))
   + match st' with Start => 0 | Pending _ _ _ _ => 1 end
   ≤ 1 + match st with Start => 0 | Pending _ _ _ _ => 1 end)%nat.
Proof.
  destruct st as [|cp needed lower upper]; cbn [utf8_step].
  - intros Hlead. apply utf8_lead_budget in Hlead. lia.
  - case_match.
    + destruct needed as [|[|needed]]; intros [= <- <-];
        cbn [map mjoin list_join]; rewrite ?app_nil_r;
        try (pose proof (utf16_units_length
                           (N.lor (N.shiftl cp 6) (N.land b 63))));
        cbn [length]; lia.
    + destruct (utf8_lead b) as [st0 out0] eqn:Hlead.
      intros [= <- <-]. apply utf8_lead_budget in Hlead.
      cbn [map mjoin list_join]. rewrite length_app.
      unfold utf16_units at 1, replacement. cbn [length]. 
      change (65533 <? 65536) with true. cbn [length].
      exact (le_n_S _ _ Hlead).
Qed.

Lemma utf8_run_length (bytes : list N) : ∀ st,
  (length (mjoin (map utf16_units (utf8_run st bytes)))
   ≤ length bytes + match st with Start => 0 | Pending _ _ _ _ => 1 end)%nat.
Proof.
  induction bytes as [|b bytes IH]; intros st.
  - destruct st; cbn; lia.
  - cbn [utf8_run]. destruct (utf8_step st b) as [st' out] eqn:Hstep.
    apply utf8_step_budget in Hstep. specialize (IH st').
    rewrite map_app, join_app, length_app. cbn [length]. lia.
Qed.

(** X6.  Decoding never lengthens: the [uri] of a record has at most as
    many UTF-16 code units as the payload has bytes after the prefix code,
    ill-formed bytes included. *)
Theorem parseUriRecord_uri_length data console r :
  fst (parseUriRecord data console) = inl (Some r) →
  (length (uri r) ≤ length data - 1)%nat
  ∧ (length (fullUri r) ≤ length (prefix r) + (length data - 1))%nat.
Proof.
  rewrite parseUriRecord_run.
  destruct data as [|code [|b rest]]; try done. cbn [fst].
  match goal with
  | |- inl (Some ?v) = _ → _ => remember v as r' eqn:Hr'
  end.
  intros [= <-]. rewrite Hr'. cbn [uri fullUri prefix].
  assert (length (toString_utf8 (b :: rest)) ≤ length (b :: rest))%nat.
  { unfold toString_utf8.
    etrans; [apply (utf8_run_length _ Start)|].
    rewrite length_map. lia. }
  rewrite length_app. cbn [length] in *. lia.
Qed.

Lemma parseUriRecord_uri_length_witness :
  ∃ r, fst (parseUriRecord [x04; xf0; x9f; x98; x80] []) = inl (Some r)
       ∧ (length (uri r) ≤ length [x04; xf0; x9f; x98; x80] - 1)%nat.
Proof.
  eexists. split; [reflexivity|].
  refine (proj1 (parseUriRecord_uri_length
                   [x04; xf0; x9f; x98; x80] [] _ _)).
  reflexivity.
Defined.
End resolver_more.

(** ** More on the legacy decode path *)

Section legacy_more.
Implicit Types (payload piece s : jsstring) (pieces : list jsstring).
Implicit Types (codes : list Z) (data : Buffer) (b code : byte).

(** What [decodePayload] makes of pieces joined by commas. *)
Lemma decodePayload_join piece pieces :
  Forall (Forall (λ c, c ≠ 44)) (piece :: pieces) →
  decodePayload (join [44] (piece :: pieces))
  = or_empty (URI_PREFIXES_get (Some (parseInt10 (trim piece))))
    ++ mjoin (map (λ s, fromCharCode (parseInt10 (trim s))) pieces).
Proof.
  intros Hall. unfold decodePayload. rewrite split_join by done.
  cbn [map lookup list_lookup drop]. rewrite drop_0, join_empty_sep.
  by rewrite map_map.
Qed.

Lemma mjoin_singletons {A B} (f : A → list B) (l : list A) :
  (∀ x, length (f x) = 1%nat) → length (mjoin (map f l)) = length l.
Proof.
  intros Hone. induction l as [|x l IH]; [done|].
  change (mjoin (map f (x :: l))) with (f x ++ mjoin (map f l)).
  rewrite length_app, Hone, IH. done.
Qed.

Lemma split_length sep s :
  length (split sep s) = S (length (filter (λ c, c = sep) s)).
Proof.
  induction s as [|c s IH]; [done|]. cbn [split].
  rewrite filter_cons. destruct (N.eqb_spec c sep) as [->|Hne].
  - rewrite decide_True by done. cbn [length]. by rewrite IH.
  - rewrite decide_False by done.
    destruct (split sep s) as [|piece pieces]; [done|].
    cbn [length] in *. lia.
Qed.

(** X7.  [decodePayload] never fails, and its result is a prefix (empty or
    an entry of the table) followed by exactly one character for each
    comma of the payload, whatever stands between the commas. *)
Theorem decodePayload_length payload :
  ∃ prefix suffix,
    decodePayload payload = prefix ++ suffix
    ∧ (prefix = [] ∨ ∃ z, URI_PREFIXES !! z = Some prefix)
    ∧ length suffix = commas payload.
Proof.
  unfold decodePayload.
  set (numbers := map (λ num, parseInt10 (trim num)) (split 44 payload)).
  exists (or_empty (URI_PREFIXES_get (numbers !! 0%nat))),
         (join [] (map fromCharCode (drop 1 numbers))).
  split; [done|]. split.
  - destruct (numbers !! 0%nat) as [[|z]|]; [by left| |by left].
    cbn [URI_PREFIXES_get].
    destruct (URI_PREFIXES !! z) as [[|c s]|] eqn:Hz; [by left| |by left].
    right. by exists z.
  - rewrite join_empty_sep.
    assert (length (drop 1 numbers) = commas payload) as <-.
    { rewrite length_drop. unfold numbers.
      rewrite length_map, split_length. unfold commas. lia. }
    apply mjoin_singletons. by intros [|z].
Qed.

Lemma drop_while_app_all {A} (p : A → bool) (l1 l2 : list A) :
  Forall (λ x, p x = true) l1 → drop_while p (l1 ++ l2) = drop_while p l2.
Proof. induction 1 as [|x l1 Hx _ IH]; [done|]. simpl. by rewrite Hx. Qed.

Lemma Z_toString_nonempty (z : Z) : Z_toString z ≠ [].
Proof.
  unfold Z_toString. case_match; [done|]. apply N_toString_10_nonempty.
Qed.

(** White space around a rendered integer is trimmed away. *)
Lemma trim_padded (before after : jsstring) (z : Z) :
  Forall (λ c, is_white_space c = true) before →
  Forall (λ c, is_white_space c = true) after →
  trim (padded (before, z, after)) = Z_toString z.
Proof.
  intros Hbefore Hafter. unfold trim, padded.
  pose proof (Z_toString_no_white_space z) as Hnone.
  pose proof (Z_toString_nonempty z) as Hne.
  rewrite drop_while_app_all by done.
  destruct (Z_toString z) as [|c s] eqn:Hs; [done|].
  apply Forall_cons in Hnone as [Hc Hnone].
  cbn [app drop_while]. rewrite Hc.
  change (c :: s ++ after) with ((c :: s) ++ after).
  rewrite reverse_app.
  rewrite drop_while_app_all by by apply Forall_reverse.
  rewrite drop_while_none.
  - apply reverse_involutive.
  - apply Forall_reverse. by apply Forall_cons.
Qed.

Lemma padded_no_comma (before after : jsstring) (z : Z) :
  Forall (λ c, is_white_space c = true) before →
  Forall (λ c, is_white_space c = true) after →
  Forall (λ c, c ≠ 44) (padded (before, z, after)).
Proof.
  intros Hbefore Hafter. unfold padded.
  assert (∀ c, is_white_space c = true → c ≠ 44) as Hws
    by (by intros c Hc ->).
  rewrite !Forall_app. split; [|split].
  - eapply Forall_impl; [done|]. apply Hws.
  - apply Z_toString_no_comma.
  - eapply Forall_impl; [done|]. apply Hws.
Qed.

(** X8.  White space around the numbers of a payload does not change the
    result: each piece is trimmed before it is read. *)
Theorem decodePayload_padding (pieces : list (jsstring * Z * jsstring)) :
  Forall (λ p,
            Forall (λ c, is_white_space c = true) p.1.1
            ∧ Forall (λ c, is_white_space c = true) p.2) pieces →
  decodePayload (join [44] (map padded pieces))
  = decodePayload (render (map (λ p, p.1.2) pieces)).
Proof.
  intros Hall. destruct pieces as [|p pieces]; [done|].
  unfold render. cbn [map].
  apply Forall_cons in Hall as [Hpiece Hall].
  rewrite !decodePayload_join.
  - destruct p as [[before z] after], Hpiece as [? ?].
    rewrite trim_padded, trim_Z_toString by done. f_equal. f_equal.
    rewrite !map_map.
    induction Hall as [|[[before' z'] after'] pieces [? ?] _ IH]; [done|].
    cbn [map]. rewrite IH.
    by rewrite trim_padded, trim_Z_toString.
  - apply Forall_cons. split; [apply Z_toString_no_comma|].
    apply Forall_fmap, Forall_fmap, Forall_true.
    intros ?. apply Z_toString_no_comma.
  - apply Forall_cons. split.
    + destruct p as [[before z] after], Hpiece as [? ?].
      by apply padded_no_comma.
    + apply Forall_fmap. eapply Forall_impl; [done|].
      intros [[before' z'] after'] [? ?]. by apply padded_no_comma.
Qed.

Lemma decodePayload_padding_witness :
  decodePayload
    (join [44] (map padded [([32], 4%Z, []); ([9; 32], 65%Z, [32; 10])]))
  = decodePayload (render [4; 65]%Z).
Proof.
  apply (decodePayload_padding [([32], 4%Z, []); ([9; 32], 65%Z, [32; 10])]).
  repeat (apply Forall_cons; split;
          [split; repeat (apply Forall_cons; split; [reflexivity|]);
           apply Forall_nil_2|]).
  apply Forall_nil_2.
Defined.

Lemma entry_no_comma (e : option Z) : Forall (λ c, c ≠ 44) (entry e).
Proof. destruct e; [apply Z_toString_no_comma | apply Forall_nil_2]. Qed.

Lemma parseInt10_entry (e : option Z) :
  parseInt10 (trim (entry e)) = entry_number e.
Proof.
  destruct e as [z|]; [|reflexivity].
  cbn [entry entry_number].
  by rewrite trim_Z_toString, parseInt10_Z_toString.
Qed.

(** X9.  The result of [decodePayload] in closed form, on integers (ones a
    JavaScript number holds exactly) with entries that may be empty: the
    prefix is the canonical one of the first code, empty when that code is
    missing, negative or above [0x23]; every later entry gives one
    character, its code modulo [2^16], and U+0000 when it is empty. *)
Theorem decodePayload_entries (e : option Z) (es : list (option Z)) :
  Forall (λ e, ∀ z, e = Some z → safe_integer z) (e :: es) →
  decodePayload (join [44] (map entry (e :: es)))
  = match e with Some z => canonical_prefix z | None => [] end
    ++ map entry_char es.
Proof.
  intros _. cbn [map]. rewrite decodePayload_join.
  - rewrite parseInt10_entry. f_equal.
    + destruct e as [z|]; [|done]. apply URI_PREFIXES_canonical.
    + rewrite map_map.
      induction es as [|e' es IH]; [done|].
      change (mjoin (map (λ x, fromCharCode (parseInt10 (trim (entry x))))
                       (e' :: es)))
        with (fromCharCode (parseInt10 (trim (entry e')))
              ++ mjoin (map (λ x, fromCharCode (parseInt10 (trim (entry x))))
                          es)).
      rewrite IH, parseInt10_entry. by destruct e'.
  - apply Forall_cons. split; [apply entry_no_comma|].
    apply Forall_fmap, Forall_true. apply entry_no_comma.
Qed.

Lemma decodePayload_entries_witness :
  decodePayload (join [44] (map entry [Some 4%Z; None; Some (-1)%Z]))
  = canonical_prefix 4 ++ map entry_char [None; Some (-1)%Z].
Proof.
  apply (decodePayload_entries (Some 4%Z) [None; Some (-1)%Z]).
  repeat (apply Forall_cons; split;
          [intros z [= <-]; unfold safe_integer; lia
          | try (apply Forall_cons; split; [by intros z|])]).
  apply Forall_nil_2.
Defined.
End legacy_more.

(** ** UTF-8 decoding against byte-for-byte decoding *)

Section verbatim.
Implicit Types (bytes : list N) (data : Buffer) (console : list jsstring).

Lemma lor_lt_pow2 (a b n : N) : a < 2 ^ n → b < 2 ^ n → N.lor a b < 2 ^ n.
Proof.
  intros Ha Hb.
  destruct (N.eq_dec (N.lor a b) 0) as [->|Hne]; [lia|].
  apply N.log2_lt_pow2; [lia|]. rewrite N.log2_lor.
  destruct (N.eq_dec a 0) as [->|], (N.eq_dec b 0) as [->|];
    rewrite ?N.lor_0_l, ?N.lor_0_r in *; try done.
  - rewrite N.max_r by apply N.le_0_l. apply N.log2_lt_pow2; lia.
  - rewrite N.max_l by apply N.le_0_l. apply N.log2_lt_pow2; lia.
  - apply N.max_lub_lt; apply N.log2_lt_pow2; lia.
Qed.

(** One more continuation byte: six more bits. *)
Lemma continuation_bound (cp b k : N) :
  cp < 2 ^ k → N.lor (N.shiftl cp 6) (N.land b 0x3F) < 2 ^ (k + 6).
Proof.
  intros Hcp. apply lor_lt_pow2.
  - rewrite N.shiftl_mul_pow2, N.pow_add_r.
    apply N.mul_lt_mono_pos_r; [lia|done].
  - change 0x3F with (N.ones 6). rewrite N.land_ones.
    pose proof (N.mod_lt b (2 ^ 6)) as Hmod.
    assert (2 ^ 6 ≤ 2 ^ (k + 6)) by (apply N.pow_le_mono_r; lia).
    lia.
Qed.

Lemma utf16_units_small (cp : N) :
  cp < 2 ^ 16 → utf16_units cp = [cp].
Proof.
  intros Hcp. unfold utf16_units.
  by replace (cp <? 0x10000) with true by (change 0x10000 with (2 ^ 16); lia).
Qed.

(** An open sequence either breaks, which gives U+FFFD first, or completes
    and gives no more code units than [worst_units] allows. *)
Lemma pending_budget bytes : ∀ cp needed lower upper,
  (1 ≤ needed)%nat →
  head (mjoin (map utf16_units
                 (utf8_run (Pending cp needed lower upper) bytes)))
  = Some replacement
  ∨ (length (mjoin (map utf16_units
                      (utf8_run (Pending cp needed lower upper) bytes)))
     + needed
     ≤ length bytes + worst_units (Pending cp needed lower upper))%nat.
Proof.
  induction bytes as [|b bytes IH]; intros cp needed lower upper Hneeded.
  { by left. }
  cbn [utf8_run utf8_step].
  destruct ((lower <=? b) && (b <=? upper)); cycle 1.
  { destruct (utf8_lead b) as [st out]. by left. }
  set (cp' := N.lor (N.shiftl cp 6) (N.land b 63)).
  destruct needed as [|[|needed]]; [lia| |].
  - right. rewrite map_app, join_app, length_app.
    pose proof (utf8_run_length bytes Start) as Hrest.
    cbv beta iota in Hrest.
    assert (length (mjoin (map utf16_units [cp']))
            ≤ worst_units (Pending cp 1 lower upper))%nat as Hunits.
    { change (mjoin (map utf16_units [cp'])) with (utf16_units cp' ++ []).
      rewrite app_nil_r. cbn [worst_units].
      destruct (N.ltb_spec cp (2 ^ 10)) as [Hsmall|_];
        [|apply utf16_units_length].
      rewrite utf16_units_small; [done|].
      apply (continuation_bound cp b 10 Hsmall). }
    cbn [length].
    assert (∀ x y w n : nat, x ≤ w → y ≤ n + 0 → x + y + 1 ≤ S n + w)%nat
      as Harith by (intros; lia).
    exact (Harith _ _ _ _ Hunits Hrest).
  - destruct (IH cp' (S needed) 0x80 0xBF) as [Hhead|Hlen]; [lia|by left|].
    right. rewrite app_nil_l.
    assert (worst_units (Pending cp' (S needed) 0x80 0xBF)
            ≤ worst_units (Pending cp (S (S needed)) lower upper))%nat.
    { destruct needed as [|[|needed]]; cbn [worst_units];
        repeat case_match; try lia.
      pose proof (continuation_bound cp b 4 ltac:(lia)). lia. }
    cbn [length].
    assert (∀ x n w w' k : nat, x + S k ≤ n + w' → w' ≤ w →
                                x + S (S k) ≤ S n + w)%nat
      as Harith by (intros; lia).
    exact (Harith _ _ _ _ _ Hlen H).
Qed.

(** A byte of [0x80] or above is never decoded to itself. *)
Lemma lead_diverges (b : N) bytes :
  0x80 ≤ b < 256 →
  mjoin (map utf16_units (utf8_run Start (b :: bytes))) ≠ b :: bytes.
Proof.
  intros Hb Heq. cbn [utf8_run utf8_step] in Heq.
  assert (∀ cp needed lower upper,
            (1 ≤ needed)%nat →
            (worst_units (Pending cp needed lower upper) ≤ needed)%nat →
            mjoin (map utf16_units
                     (utf8_run (Pending cp needed lower upper) bytes))
            ≠ b :: bytes) as Hopen.
  { intros cp needed lower upper Hneeded Hworst Hout.
    destruct (pending_budget bytes cp needed lower upper Hneeded)
      as [Hhead|Hlen].
    - rewrite Hout in Hhead. injection Hhead as ->.
      unfold replacement in Hb. lia.
    - rewrite Hout in Hlen. cbn [length] in Hlen. lia. }
  assert (∀ k, N.land b (N.ones k) < 2 ^ k) as Hland.
  { intros k. rewrite N.land_ones. apply N.mod_lt.
    apply N.pow_nonzero. lia. }
  unfold utf8_lead in Heq.
  replace (b <=? 0x7F) with false in Heq by lia.
  destruct ((0xC2 <=? b) && (b <=? 0xDF)).
  { rewrite app_nil_l in Heq. revert Heq. apply Hopen; [lia|].
    cbn [worst_units]. pose proof (Hland 5).
    change (N.ones 5) with 0x1F in *. case_match; lia. }
  destruct ((0xE0 <=? b) && (b <=? 0xEF)).
  { rewrite app_nil_l in Heq. revert Heq. apply Hopen; [lia|].
    cbn [worst_units]. pose proof (Hland 4).
    change (N.ones 4) with 0xF in *. case_match; lia. }
  destruct ((0xF0 <=? b) && (b <=? 0xF4)).
  { rewrite app_nil_l in Heq. revert Heq. apply Hopen; [lia|].
    cbn [worst_units]. lia. }
  injection Heq as Heq _. unfold replacement in Heq. lia.
Qed.

(** Decoding gives the bytes back exactly when all of them are ASCII. *)
Lemma toString_utf8_verbatim_iff data :
  toString_utf8 data = map Byte.to_N data
  ↔ Forall (λ b, Byte.to_N b < 0x80) data.
Proof.
  split; [|apply toString_utf8_ascii].
  unfold toString_utf8.
  induction data as [|b data IH]; [done|]. intros Heq.
  pose proof (Byte.to_N_bounded b) as Hb.
  destruct (N.lt_ge_cases (Byte.to_N b) 0x80) as [Hascii|Hhigh].
  - apply Forall_cons. split; [done|]. apply IH.
    cbn [map utf8_run utf8_step] in Heq. unfold utf8_lead in Heq.
    replace (Byte.to_N b <=? 0x7F) with true in Heq by lia.
    change (mjoin (map utf16_units
                     ([Byte.to_N b] ++ utf8_run Start (map Byte.to_N data))))
      with (utf16_units (Byte.to_N b)
            ++ mjoin (map utf16_units
                        (utf8_run Start (map Byte.to_N data)))) in Heq.
    rewrite utf16_units_small in Heq
      by (change (2 ^ 16) with 65536; lia).
    by injection Heq.
  - exfalso. revert Heq. apply lead_diverges. lia.
Qed.

(** X10.  The [uri] of a record is the payload's bytes after the prefix
    code, one character per byte, exactly when all those bytes are ASCII;
    any byte of [0x80] or above changes it. *)
Theorem parseUriRecord_verbatim_iff data console r :
  fst (parseUriRecord data console) = inl (Some r) →
  uri r = map Byte.to_N (drop 1 data)
  ↔ Forall (λ b, Byte.to_N b < 0x80) (drop 1 data).
Proof.
  rewrite parseUriRecord_run.
  destruct data as [|code [|b rest]]; try done. cbn [fst].
  match goal with
  | |- inl (Some ?v) = _ → _ => remember v as r' eqn:Hr'
  end.
  intros [= <-]. rewrite Hr'. cbn [uri].
  apply toString_utf8_verbatim_iff.
Qed.

Lemma parseUriRecord_verbatim_iff_witness :
  ∃ r, fst (parseUriRecord [x04; x41; x42] []) = inl (Some r)
       ∧ (uri r = map Byte.to_N (drop 1 [x04; x41; x42])
          ↔ Forall (λ b, Byte.to_N b < 0x80) (drop 1 [x04; x41; x42])).
Proof.
  eexists. split; [reflexivity|].
  apply (parseUriRecord_verbatim_iff [x04; x41; x42] []). reflexivity.
Defined.

(** X11.  The binary and the legacy decode path give the same string
    exactly when the payload's bytes after the prefix code are all ASCII:
    the legacy path takes each byte for one character, the binary path
    decodes UTF-8. *)
Theorem decode_paths_agree_iff data console r :
  fst (parseUriRecord data console) = inl (Some r) →
  fullUri r = decodePayload (render (map byte_value data))
  ↔ Forall (λ b, Byte.to_N b < 0x80) (drop 1 data).
Proof.
  rewrite parseUriRecord_run.
  destruct data as [|code [|b rest]]; try done. cbn [fst].
  match goal with
  | |- inl (Some ?v) = _ → _ => remember v as r' eqn:Hr'
  end.
  intros [= <-]. rewrite Hr'. cbn [fullUri].
  rewrite decodePayload_render.
  change (map byte_value (code :: b :: rest))
    with (byte_value code :: map byte_value (b :: rest)).
  unfold resolveUriFromCodeList. cbn [resolved_full head tail].
  rewrite chr_bytes.
  change (drop 1 (code :: b :: rest)) with (b :: rest).
  rewrite <- toString_utf8_verbatim_iff.
  change (URI_PREFIXES_get (Num <$> Some (byte_value code)))
    with (URI_PREFIXES !! byte_value code).
  split; [apply app_inv_head | by intros ->].
Qed.

Lemma decode_paths_agree_iff_witness :
  ∃ r, fst (parseUriRecord [x04; xc3; xa9] []) = inl (Some r)
       ∧ (fullUri r
          = decodePayload (render (map byte_value [x04; xc3; xa9]))
          ↔ Forall (λ b, Byte.to_N b < 0x80) (drop 1 [x04; xc3; xa9])).
Proof.
  eexists. split; [reflexivity|].
  apply (decode_paths_agree_iff [x04; xc3; xa9] []). reflexivity.
Defined.
End verbatim.

(** ** The card store *)

Section store.
Implicit Types (w : world) (url timestamp : jsstring) (uid : option jsstring).
Implicit Types (data card cards urls : json) (items : list json).

Lemma url_of_card_entry uid timestamp url data :
  url_of (card_entry uid timestamp url data) = inl (Some (JStr url)).
Proof. by destruct uid. Qed.

Lemma is_string_true v url : is_string v url = true ↔ v = Some (JStr url).
Proof.
  destruct v as [[]|]; cbn [is_string]; try (split; [done|congruence]).
  rewrite bool_decide_eq_true. split; congruence.
Qed.

Lemma find_url_app_None url items card :
  find_url url items = inl None →
  find_url url (items ++ [card])
  = match url_of card with
    | inr e => inr e
    | inl v => if is_string v url then inl (Some card) else inl None
    end.
Proof.
  induction items as [|c items IH]; cbn [find_url app]; [done|].
  destruct (url_of c) as [v|e]; [|done].
  destruct (is_string v url); [done|]. apply IH.
Qed.



Lemma files_differ : cardsFile ≠ urlsFile.
Proof. done. Qed.

Ltac run_task :=
  unfold record_url_caught, try_catch, record_url, mbind, Task_bind,
    note, read_or_empty, lift, writeFile, log_error;
  cbn [fst snd files screen].

(** The files after a run of the handler, step by step. *)
Lemma record_url_caught_files uid timestamp data url w :
  files (snd (record_url_caught uid timestamp data url w))
  = let cards := default (JArr []) (files w !! cardsFile) in
    let urls := default (JArr []) (files w !! urlsFile) in
    match cards_find cards url with
    | inr _ => files w
    | inl found =>
        let files1 :=
          match found, cards with
          | None, JArr items =>
              <[cardsFile :=
                  JArr (items ++ [card_entry uid timestamp url data])]>
                (files w)
          | _, _ => files w
          end in
        match urls_includes urls url, urls with
        | inl false, JArr items =>
            <[urlsFile := JArr (items ++ [JStr url])]> files1
        | _, _ => files1
        end
    end.
Proof.
  run_task. cbv zeta.
  destruct (cards_find _ url) as [[found|]|e] eqn:Hfind;
    cbn [fst snd files screen]; [| |done].
  - destruct (urls_includes _ url) as [[|]|e] eqn:Hincl;
      cbn [fst snd files screen negb]; try done.
    by destruct (default _ (files w !! urlsFile)).
  - destruct (default _ (files w !! cardsFile)) as [| | | |items|] eqn:Hcards;
      try done.
    cbn [push fst snd files screen].
    destruct (urls_includes _ url) as [[|]|e] eqn:Hincl;
      cbn [fst snd files screen negb]; try done.
    by destruct (default _ (files w !! urlsFile)).
Qed.

(** A run writes nothing when the cards cannot be searched, or hold the
    URL while the URLs hold it too (or are no array). *)
Lemma record_url_caught_fixed uid timestamp data url w :
  (∃ e, cards_find (default (JArr []) (files w !! cardsFile)) url = inr e)
  ∨ ((∃ card, cards_find (default (JArr []) (files w !! cardsFile)) url
              = inl (Some card))
     ∧ ∀ items, default (JArr []) (files w !! urlsFile) = JArr items →
                urls_includes (JArr items) url ≠ inl false) →
  files (snd (record_url_caught uid timestamp data url w)) = files w.
Proof.
  intros Hsettled. rewrite record_url_caught_files. cbv zeta.
  destruct Hsettled as [[e ->]|[[card ->] Hurls]]; [done|].
  destruct (default _ (files w !! urlsFile)) as [| | | |items|] eqn:Hu;
    try by destruct (urls_includes _ url) as [[|]|].
  specialize (Hurls items eq_refl).
  by destruct (urls_includes _ url) as [[|]|].
Qed.

(** After a run, the files are in such a state for the same URL. *)
Lemma record_url_caught_settled uid timestamp data url w :
  let w' := snd (record_url_caught uid timestamp data url w) in
  (∃ e, cards_find (default (JArr []) (files w' !! cardsFile)) url = inr e)
  ∨ ((∃ card, cards_find (default (JArr []) (files w' !! cardsFile)) url
              = inl (Some card))
     ∧ ∀ items, default (JArr []) (files w' !! urlsFile) = JArr items →
                urls_includes (JArr items) url ≠ inl false).
Proof.
  cbv zeta. rewrite record_url_caught_files. cbv zeta.
  pose proof files_differ as Hdiff.
  assert (∀ items,
            urls_includes (JArr (items ++ [JStr url])) url ≠ inl false)
    as Hpushed.
  { intros items. cbn [urls_includes]. rewrite existsb_app. cbn [existsb].
    rewrite (proj2 (is_string_true _ _) eq_refl).
    by rewrite orb_true_r. }
  destruct (cards_find (default (JArr []) (files w !! cardsFile)) url)
    as [[found|]|e] eqn:Hfind.
  - (* the card was there *)
    right.
    destruct (urls_includes (default (JArr []) (files w !! urlsFile)) url)
      as [[|]|e] eqn:Hincl.
    + rewrite Hfind. split; [by eexists|]. intros items Hu.
      rewrite Hu in Hincl. congruence.
    + destruct (default _ (files w !! urlsFile)) as [| | | |items|] eqn:Hu;
        try (rewrite Hfind, Hu; split; [by eexists|intros ?; done]).
      rewrite lookup_insert_ne, lookup_insert_eq, Hfind by done.
      split; [by eexists|]. cbn [default]. intros ? [= <-]. apply Hpushed.
    + rewrite Hfind. split; [by eexists|]. intros items Hu.
      rewrite Hu in Hincl. congruence.
  - (* the card was added *)
    right.
    destruct (default _ (files w !! cardsFile)) as [| | | |cs|] eqn:Hc;
      try done.
    assert (cards_find (JArr (cs ++ [card_entry uid timestamp url data])) url
            = inl (Some (card_entry uid timestamp url data))) as Hadded.
    { cbn [cards_find] in *. rewrite find_url_app_None by done.
      rewrite url_of_card_entry.
      by rewrite (proj2 (is_string_true _ _) eq_refl). }
    destruct (urls_includes (default (JArr []) (files w !! urlsFile)) url)
      as [[|]|e] eqn:Hincl.
    + rewrite lookup_insert_eq, lookup_insert_ne by done.
      split; [by eexists|]. intros items Hu. rewrite Hu in Hincl. congruence.
    + destruct (default _ (files w !! urlsFile)) as [| | | |items|] eqn:Hu;
        try (rewrite lookup_insert_eq, lookup_insert_ne, Hu by done;
             split; [by eexists|intros ?; done]).
      rewrite lookup_insert_ne, !lookup_insert_eq by done.
      split; [by eexists|]. cbn [default]. intros ? [= <-]. apply Hpushed.
    + rewrite lookup_insert_eq, lookup_insert_ne by done.
      split; [by eexists|]. intros items Hu. rewrite Hu in Hincl. congruence.
  - (* the cards could not be searched *)
    left. rewrite Hfind. by eexists.
Qed.

(** X12.  Recording is idempotent: a second run for the same URL (whatever
    the card, the time or the records) leaves every file as the first run
    left it; no entry is stored twice. *)
Theorem record_url_idempotent uid timestamp data uid' timestamp' data' url w :
  files (snd (record_url_caught uid' timestamp' data' url
                (snd (record_url_caught uid timestamp data url w))))
  = files (snd (record_url_caught uid timestamp data url w)).
Proof.
  apply record_url_caught_fixed, record_url_caught_settled.
Qed.








(** X15.  A [cards.json] that holds something other than an array stops
    the run before anything is written: the URL is shown, the
    [TypeError] is caught and logged, and every file is as it was; the
    file is not repaired. *)
Theorem record_url_cards_malformed uid timestamp data url w c :
  files w !! cardsFile = Some c →
  (∀ items, c ≠ JArr items) →
  record_url_caught uid timestamp data url w
  = (inl tt,
     {| files := files w;
        screen := screen w
                  ++ [Note url (lit "Card Contents");
                      LogError (lit "NDEF parse error:") TypeError] |}).
Proof.
  intros Hc Hno_array. run_task. rewrite Hc.
  destruct c as [| | | |items|];
    cbn [default from_option id cards_find fst snd files screen];
    rewrite <- ?app_assoc; try done.
  by destruct (Hno_array items).
Qed.

Lemma record_url_cards_malformed_witness :
  fst (record_url_caught None (lit "t") (JArr []) (lit "https://x")
         {| files := {[ cardsFile := JObj [] ]}; screen := [] |})
  = inl tt.
Proof.
  refine (f_equal fst
            (record_url_cards_malformed None (lit "t") (JArr [])
               (lit "https://x")
               {| files := {[ cardsFile := JObj [] ]}; screen := [] |}
               (JObj []) _ _)).
  - reflexivity.
  - intros items. discriminate.
Defined.

(** X16.  A [urls.json] that holds something other than an array is never
    written, and the run ends in a logged error (after [cards.json] has
    had its turn, so the two files can disagree) unless the file holds a
    string of which the URL is a part, which counts as the URL being
    there. *)
Theorem record_url_urls_malformed uid timestamp data url w u :
  files w !! urlsFile = Some u →
  (∀ items, u ≠ JArr items) →
  files (snd (record_url_caught uid timestamp data url w)) !! urlsFile
  = Some u
  ∧ ((∀ s, u = JStr s → string_includes s url = false) →
     ∃ e, last (screen (snd (record_url_caught uid timestamp data url w)))
          = Some (LogError (lit "NDEF parse error:") e)).
Proof.
  intros Hu Hno_array. split.
  - rewrite record_url_caught_files. cbv zeta. rewrite Hu.
    pose proof files_differ as Hdiff.
    cbn [default from_option id].
    destruct u as [| | | |items|]; try (by destruct (Hno_array items));
      repeat case_match; rewrite ?lookup_insert_ne by done; done.
  - intros Hstring. run_task. rewrite Hu.
    cbn [default from_option id].
    set (cards := default (JArr []) (files w !! cardsFile)).
    assert (∃ included,
              urls_includes u url = included
              ∧ (included = inl false ∨ ∃ e, included = inr e)
              ∧ ∃ e, push u (JStr url) = inr e)
      as (included & -> & Hincluded & [e Hpush]).
    { destruct u as [| | |s|items|]; try (by destruct (Hno_array items));
        eexists; (split; [done|]); cbn [urls_includes push];
        try (rewrite (Hstring _ eq_refl)); eauto. }
    destruct (cards_find cards url) as [[found|]|e'];
      cbn [fst snd files screen];
      try destruct (push cards _); cbn [fst snd files screen];
      try (destruct Hincluded as [->|[e1 ->]];
           cbn [fst snd files screen negb]; rewrite ?Hpush;
           cbn [fst snd files screen]);
      rewrite last_snoc; by eexists.
Qed.

Lemma record_url_urls_malformed_witness :
  files (snd (record_url_caught None (lit "t") (JArr []) (lit "https://x")
                {| files := {[ urlsFile := JNull ]}; screen := [] |}))
    !! urlsFile
  = Some JNull.
Proof.
  refine (proj1 (record_url_urls_malformed None (lit "t") (JArr [])
                   (lit "https://x")
                   {| files := {[ urlsFile := JNull ]}; screen := [] |}
                   JNull _ _)).
  - reflexivity.
  - intros items. discriminate.
Defined.

(** The result and the screen of a run. *)
Lemma record_url_caught_returns uid timestamp data url w :
  fst (record_url_caught uid timestamp data url w) = inl tt
  ∧ ∃ more, screen (snd (record_url_caught uid timestamp data url w))
            = screen w ++ Note url (lit "Card Contents") :: more.
Proof.
  run_task.
  set (cards := default (JArr []) (files w !! cardsFile)).
  set (urls := default (JArr []) (files w !! urlsFile)).
  destruct (cards_find cards url) as [[found|]|e];
    cbn [fst snd files screen];
    try destruct (push cards _); cbn [fst snd files screen];
    try destruct (urls_includes urls url) as [[|]|e'];
    cbn [fst snd files screen negb];
    try destruct (push urls (JStr url)); cbn [fst snd files screen];
    (split; [done|]); rewrite <- ?app_assoc; by eexists.
Qed.

(** X17.  A run never throws and never takes anything away: it returns
    normally whatever the files hold, leaves every other file alone, keeps
    every file that was there, and only adds to what the user was shown,
    the URL first. *)
Theorem record_url_caught_safe uid timestamp data url w :
  fst (record_url_caught uid timestamp data url w) = inl tt
  ∧ (∀ file, file ≠ cardsFile → file ≠ urlsFile →
       files (snd (record_url_caught uid timestamp data url w)) !! file
       = files w !! file)
  ∧ (∀ file, is_Some (files w !! file) →
       is_Some (files (snd (record_url_caught uid timestamp data url w))
                  !! file))
  ∧ ∃ more, screen (snd (record_url_caught uid timestamp data url w))
            = screen w ++ Note url (lit "Card Contents") :: more.
Proof.
  destruct (record_url_caught_returns uid timestamp data url w)
    as [Hreturns Hscreen].
  split; [done|]. split; [|split; [|done]].
  - intros file Hcards Hurls. rewrite record_url_caught_files. cbv zeta.
    repeat case_match; rewrite ?lookup_insert_ne by done; done.
  - intros file Hfile. rewrite record_url_caught_files. cbv zeta.
    repeat case_match; rewrite ?lookup_insert_is_Some'; auto.
Qed.

End store.
